(** * Mail triage: hydration pipeline, priority scoring and reply drafts

    A shallow embedding of [gmail_client.py], [app.py] ([score_message]) and
    [reply_generation.py], with the properties of the written specification
    stated and settled against it.

    Conventions.
    - A Python [str] is a Rocq [string]; non-ASCII text is held as its UTF-8
      bytes, so substring and prefix tests agree with Python's, and the
      slicing helper [str_take] counts code points, not bytes.
    - A timestamp is a [Z]: microseconds since the epoch, in UTC.
    - Library calls whose code is not part of the repository ([str.lower],
      [str.strip], dateutil, base64, BeautifulSoup, the Gmail service, the
      OpenAI client) are fields of classes; every definition computes once an
      instance is given, and the theorems hold for all instances. *)

From Stdlib Require Import ZArith String Ascii Bool Lia.
From Stdlib Require Import Sorting.Sorted Sorting.Permutation.
From stdpp Require Import base decidable option list gmap strings pretty.

Local Open Scope string_scope.
Local Open Scope list_scope.
Local Open Scope Z_scope.
Local Set Warnings "-register-all".

(** ** Python strings *)

Module Py.

(** [s.startswith(p)] *)
Fixpoint startswith (s p : string) : bool :=
  match p, s with
  | EmptyString, _ => true
  | String _ _, EmptyString => false
  | String a p', String b s' => if decide (a = b) then startswith s' p' else false
  end.

(** [needle in hay] *)
Fixpoint contains (hay needle : string) : bool :=
  startswith hay needle ||
  match hay with
  | EmptyString => false
  | String _ hay' => contains hay' needle
  end.

(** [any(w in hay for w in words)] *)
Definition any_in (words : list string) (hay : string) : bool :=
  existsb (contains hay) words.

(** Truthiness of a [str]: [bool(s)]. *)
Definition truthy (s : string) : bool :=
  match s with EmptyString => false | String _ _ => true end.

(** Truthiness of an optional [str] ([None] and [""] are both falsy). *)
Definition truthy_opt (o : option string) : bool :=
  match o with None => false | Some s => truthy s end.

(** [a or b] on strings. *)
Definition or_else (a b : string) : string := if truthy a then a else b.

(** [s.split(sep)[0]] for a one-character separator. *)
Fixpoint before (sep : ascii) (s : string) : string :=
  match s with
  | EmptyString => EmptyString
  | String c s' => if decide (c = sep) then EmptyString else String c (before sep s')
  end.

(** A UTF-8 continuation byte, [10xxxxxx]. *)
Definition is_continuation (c : ascii) : bool :=
  let n := nat_of_ascii c in (128 <=? n)%nat && (n <? 192)%nat.

(** [s[:n]]: the first [n] code points of [s]. A continuation byte
    belongs to the code point already counted. *)
Fixpoint str_take (n : nat) (s : string) : string :=
  match s with
  | EmptyString => EmptyString
  | String c s' =>
      if is_continuation c then String c (str_take n s')
      else match n with
           | O => EmptyString
           | S n' => String c (str_take n' s')
           end
  end.

(** [str.lower] and [str.strip] follow the Unicode tables of the Python
    runtime; they are taken as given. *)
Class StrOps := {
  lower : string → string;
  strip : string → string;
}.

(** The two methods on ASCII text, for running the model. *)
Definition ascii_lower_char (c : ascii) : ascii :=
  let n := nat_of_ascii c in
  if (65 <=? n)%nat && (n <=? 90)%nat then ascii_of_nat (n + 32) else c.

Fixpoint ascii_lower (s : string) : string :=
  match s with
  | EmptyString => EmptyString
  | String c s' => String (ascii_lower_char c) (ascii_lower s')
  end.

Definition ascii_space (c : ascii) : bool :=
  let n := nat_of_ascii c in
  ((9 <=? n)%nat && (n <=? 13)%nat) || ((28 <=? n)%nat && (n <=? 32)%nat).

Fixpoint lstrip (s : string) : string :=
  match s with
  | String c s' => if ascii_space c then lstrip s' else s
  | EmptyString => EmptyString
  end.

Definition ascii_strip (s : string) : string :=
  String.rev (lstrip (String.rev (lstrip s))).

Definition AsciiOps : StrOps := {| lower := ascii_lower; strip := ascii_strip |}.

(** [len(s)]: the number of code points of [s]. *)
Fixpoint str_len (s : string) : nat :=
  match s with
  | EmptyString => O
  | String c s' => if is_continuation c then str_len s' else S (str_len s')
  end.

(** [c * n] for a one-character string [c]. *)
Fixpoint str_repeat (c : ascii) (n : nat) : string :=
  match n with
  | O => EmptyString
  | S n' => String c (str_repeat c n')
  end.

(** [s.ljust(width)] *)
Definition ljust (width : nat) (s : string) : string :=
  s +:+ str_repeat " " (width - str_len s).

(** [sep.join(l)] *)
Definition join (sep : string) (l : list string) : string := String.concat sep l.

(** [a <= b] on strings: the order of the code points, which is the order
    of the UTF-8 bytes. *)
Definition str_le (a b : string) : bool := String.leb a b.

End Py.

(** ** gmail_client.py: data *)

Module gmail_client.
Import Py.

(** The dataclass [GmailMessage]. *)
Record GmailMessage := {
  id : string;
  thread_id : string;
  subject : string;
  sender : string;
  date : Z;
  snippet : string;
  labels : list string;
  unread : bool;
  starred : bool;
  important : bool;
  thread_size : Z;
  body_text : string;
  body_html : string;
  to : string;
  cc : string;
  cc_only : bool;
}.

(** One entry of [payload["headers"]]. *)
Record Header := { name : string; value : string }.

(** A node of the MIME tree: [mimeType], [headers], [body.data] and
    [parts]; an absent key is [None] (or the empty list). *)
Inductive Payload :=
  Part (mimeType : option string) (headers : list Header)
       (data : option string) (parts : list Payload).

Definition mimeType (p : Payload) : option string := let 'Part m _ _ _ := p in m.
Definition headers (p : Payload) : list Header := let 'Part _ h _ _ := p in h.
Definition data (p : Payload) : option string := let 'Part _ _ d _ := p in d.
Definition parts (p : Payload) : list Payload := let 'Part _ _ _ ps := p in ps.

(** [part.get("mimeType") == m] *)
Definition is_mime (p : Payload) (m : string) : bool :=
  bool_decide (mimeType p = Some m).

(** The empty dict [{}] read as a payload. *)
Definition no_payload : Payload := Part None [] None [].

(** The answer of [messages().get(format="full")]. *)
Record MessageResource := {
  res_id : option string;
  res_threadId : option string;
  res_labelIds : list string;
  res_snippet : option string;
  res_payload : Payload;
}.

(** The answer of [threads().get(format="metadata")]: only the number of
    entries of ["messages"] is read. *)
Record ThreadResource := { thread_messages : list string }.

(** The answer of [messages().list]: each entry of ["messages"] is a dict
    that may hold an ["id"]. *)
Record ListResponse := {
  list_messages : list (option string);
  nextPageToken : option string;
}.

(** The exceptions that leave the client: its own [RuntimeError], those of
    the libraries, and those of the transport under the service, such as
    [TimeoutError] and httplib2's [ServerNotFoundError], which are not
    [HttpError]s. *)
Inductive exn :=
| RuntimeError (msg : string)
| ParserError
| BinasciiError
| OverflowError
| TimeoutError
| ServerNotFoundError.

(** [execute()] answers, raises [HttpError], or raises another exception,
    which no [except HttpError] clause of the client catches. *)
Inductive api (A : Type) := Answer (a : A) | HttpError | Fails (e : exn).
Arguments Answer {A} a.
Arguments HttpError {A}.
Arguments Fails {A} e.

(** The authenticated Gmail service: [messages().list] by query and page
    token (the label filter and the page size are fixed), [messages().get]
    and [threads().get] by identifier. An answer depends on the request
    only. *)
Class Service := {
  messages_list : string → option string → api ListResponse;
  messages_get : string → api MessageResource;
  threads_get : string → api ThreadResource;
}.

(** The libraries the client calls.
    - [date_parse s]: [dateutil.parser.parse(s).astimezone(timezone.utc)];
      [None] when that raises.
    - [b64decode_utf8 s]:
      [base64.urlsafe_b64decode(s.encode("UTF-8")).decode("utf-8", errors="ignore")];
      [None] when base64 raises [binascii.Error].
    - [prettify s]: [BeautifulSoup(s, "html.parser").prettify()].
    - [get_text s]: [BeautifulSoup(s, "html.parser").get_text("\n")].
    The last two are taken on markup that the parser accepts: an exception
    of [html.parser] is not modelled. *)
Class Libs := {
  date_parse : string → option Z;
  b64decode_utf8 : string → option string;
  prettify : string → string;
  get_text : string → string;
}.

(** [datetime.now(timezone.utc)]: the k-th reading of the clock. *)
Class Clock := { clock : nat → Z }.

(** ** Effects: exceptions, the log of remote calls, the clock *)

Inductive outcome (A : Type) :=
| Ret (a : A)
| Raise (e : exn)
| OutOfFuel.
Arguments Ret {A} a.
Arguments Raise {A} e.
Arguments OutOfFuel {A}.

Inductive Call :=
| ListCall (q : string) (pageToken : option string)
| GetCall (message_id : string)
| ThreadCall (thread_id : string).

Record World := { calls : list Call; ticks : nat }.

Definition world0 : World := {| calls := []; ticks := 0 |}.

Definition M (A : Type) : Type := World → outcome A * World.

Definition ret {A} (a : A) : M A := λ w, (Ret a, w).
Definition raise {A} (e : exn) : M A := λ w, (Raise e, w).
Definition bind {A B} (m : M A) (k : A → M B) : M B :=
  λ w, match m w with
       | (Ret a, w') => k a w'
       | (Raise e, w') => (Raise e, w')
       | (OutOfFuel, w') => (OutOfFuel, w')
       end.
Definition lift {A} (o : outcome A) : M A := λ w, (o, w).
Definition emit (c : Call) : M unit :=
  λ w, (Ret tt, {| calls := calls w ++ [c]; ticks := ticks w |}).
Definition now `{Clock} : M Z :=
  λ w, (Ret (clock (ticks w)), {| calls := calls w; ticks := S (ticks w) |}).

(** A call to [messages().list]. *)
Definition is_list_call (c : Call) : bool :=
  match c with ListCall _ _ => true | _ => false end.

(** The world after [extra] further calls and [k] further readings of
    the clock. *)
Definition advance (w : World) (extra : list Call) (k : nat) : World :=
  {| calls := calls w ++ extra; ticks := (ticks w + k)%nat |}.

(** A computation of the hydration phase: it terminates, it issues no
    listing call, and what it does depends on the clock but not on the
    calls made so far. *)
Definition framed {A} (m : M A) : Prop :=
  ∀ w1 w2, ticks w1 = ticks w2 →
  ∃ o extra k,
    m w1 = (o, advance w1 extra k) ∧ m w2 = (o, advance w2 extra k)
    ∧ forallb (λ c, negb (is_list_call c)) extra = true
    ∧ o ≠ OutOfFuel.

(** A computation that adds to the log of calls a list that satisfies
    [P], whatever the world it starts in. *)
Definition appends {A} (m : M A) (P : list Call → Prop) : Prop :=
  ∀ w, ∃ extra, calls (m w).2 = calls w ++ extra ∧ P extra.

(** Exceptions alone, for the code that calls no service. *)
Definition obind {A B} (o : outcome A) (k : A → outcome B) : outcome B :=
  match o with
  | Ret a => k a
  | Raise e => Raise e
  | OutOfFuel => OutOfFuel
  end.

Declare Scope py_scope.
Delimit Scope py_scope with py.
Notation "'do' x <- m ; k" := (bind m (λ x, k))
  (at level 10, x pattern, m at level 100, k at level 200) : py_scope.
Notation "'try' x <- o ; k" := (obind o (λ x, k))
  (at level 10, x pattern, o at level 100, k at level 200) : py_scope.
Local Open Scope py_scope.

(** ** gmail_client.py: the client *)

Section client.
Context `{StrOps} `{Libs} `{Service} `{Clock}.

(** [_decode], the helper of [_extract_bodies]. *)
Definition _decode (part : Payload) : outcome string :=
  match data part with
  | None => Ret ""
  | Some d =>
      if negb (truthy d) then Ret ""
      else match b64decode_utf8 d with
           | None => Raise BinasciiError
           | Some decoded =>
               if is_mime part "text/html"
               then Ret (prettify decoded)
               else Ret decoded
           end
  end.

(** The [for part in parts] loop of [_extract_bodies], from the slots
    [text] and [html] it has reached. *)
Fixpoint scan_parts (ps : list Payload) (text html : string) : outcome (string * string) :=
  match ps with
  | [] => Ret (text, html)
  | part :: rest =>
      if is_mime part "text/plain" && negb (truthy text) then
        try t <- _decode part; scan_parts rest t html
      else if is_mime part "text/html" && negb (truthy html) then
        try h <- _decode part; scan_parts rest text h
      else scan_parts rest text html
  end.

Definition _extract_bodies (payload : Payload) : outcome (string * string) :=
  if is_mime payload "text/plain" then
    try t <- _decode payload; Ret (t, "")
  else if is_mime payload "text/html" then
    try html <- _decode payload; Ret (get_text html, html)
  else
    try (text, html) <- scan_parts (parts payload) "" "";
    if negb (truthy text) && truthy html
    then Ret (get_text html, html)
    else Ret (text, html).

Definition _fetch_thread_size (thread_id : option string) : M Z :=
  match thread_id with
  | None => ret 1
  | Some tid =>
      if negb (truthy tid) then ret 1
      else
        do _ <- emit (ThreadCall tid);
        match threads_get tid with
        | Answer thread => ret (Z.of_nat (length (thread_messages thread)))
        | HttpError => ret 1
        | Fails e => raise e
        end
  end.

(** The dict comprehension [{h["name"].lower(): h["value"] for h in ...}]:
    a later header replaces an earlier one of the same lowered name. *)
Definition header_dict (hs : list Header) : gmap string string :=
  foldl (λ d h, <[lower (name h) := value h]> d) ∅ hs.

Definition _hydrate_message (message_id : option string) : M (option GmailMessage) :=
  match message_id with
  | None => ret None
  | Some mid =>
      if negb (truthy mid) then ret None
      else
        do _ <- emit (GetCall mid);
        match messages_get mid with
        | HttpError => ret None
        | Fails e => raise e
        | Answer response =>
            let headers := header_dict (headers (res_payload response)) in
            let subject := default "(Sans objet)" (headers !! "subject") in
            let sender := default "" (headers !! "from") in
            let date_str := headers !! "date" in
            do parsed_date <-
              (if truthy_opt date_str
               then match date_parse (default "" date_str) with
                    | Some d => ret d
                    | None => raise ParserError
                    end
               else now);
            let labels := res_labelIds response in
            let unread := bool_decide ("UNREAD" ∈ labels) in
            let starred := bool_decide ("STARRED" ∈ labels) in
            let important :=
              bool_decide ("IMPORTANT" ∈ labels) || bool_decide ("CATEGORY_PERSONAL" ∈ labels) in
            let snippet := default "" (res_snippet response) in
            do (body_text, body_html) <- lift (_extract_bodies (res_payload response));
            let to_header := default "" (headers !! "to") in
            let cc_header := default "" (headers !! "cc") in
            let cc_only := truthy cc_header && negb (truthy to_header) in
            do thread_size <- _fetch_thread_size (res_threadId response);
            ret (Some {|
              id := default "" (res_id response);
              thread_id := default "" (res_threadId response);
              subject := subject;
              sender := sender;
              date := parsed_date;
              snippet := snippet;
              labels := labels;
              unread := unread;
              starred := starred;
              important := important;
              thread_size := thread_size;
              body_text := body_text;
              body_html := body_html;
              to := to_header;
              cc := cc_header;
              cc_only := cc_only;
            |})
        end
  end.


(** [datetime.min] and [datetime.max], in microseconds from the epoch. *)
Definition datetime_min : Z := -62135596800000000.
Definition datetime_max : Z := 253402300799999999.

(** [int((datetime.now(timezone.utc) - timedelta(days=days)).timestamp())],
    from the reading [t] of the clock: [timedelta] refuses more than
    999999999 days, the difference must stay between [datetime.min] and
    [datetime.max], and [int] truncates towards zero. The rounding of the
    float returned by [timestamp()] is left out. *)
Definition after_timestamp (t days : Z) : outcome Z :=
  if 999999999 <? Z.abs days then Raise OverflowError
  else
    let d := t - days * 86400000000 in
    if (d <? datetime_min) || (datetime_max <? d) then Raise OverflowError
    else Ret (d ÷ 1000000).

(** The [while True] loop of [fetch_recent_messages], inside its
    [try] block; [fuel] bounds the number of iterations. *)
Fixpoint list_loop (fuel : nat) (query : string) (page_token : option string)
    (messages : list (option string)) : M (list (option string)) :=
  match fuel with
  | O => lift OutOfFuel
  | S fuel' =>
      do _ <- emit (ListCall query page_token);
      match messages_list query page_token with
      | HttpError =>
          raise (RuntimeError "Unable to reach Gmail. Check your connection and scopes.")
      | Fails e => raise e
      | Answer response =>
          let messages := messages ++ list_messages response in
          let page_token := nextPageToken response in
          if negb (truthy_opt page_token) then ret messages
          else list_loop fuel' query page_token messages
      end
  end.

(** The [for message in messages] loop. *)
Fixpoint hydrate_loop (messages : list (option string)) (hydrated : list GmailMessage)
    : M (list GmailMessage) :=
  match messages with
  | [] => ret hydrated
  | message :: rest =>
      do detailed <- _hydrate_message message;
      match detailed with
      | Some d => hydrate_loop rest (hydrated ++ [d])
      | None => hydrate_loop rest hydrated
      end
  end.

(** [hydrated.sort(key=lambda msg: msg.date, reverse=True)]: the stable
    sort, latest first; messages of equal date keep their order. *)
Fixpoint insert_desc (x : GmailMessage) (l : list GmailMessage) : list GmailMessage :=
  match l with
  | [] => [x]
  | y :: l' => if date y <=? date x then x :: l else y :: insert_desc x l'
  end.

Definition sort_desc (l : list GmailMessage) : list GmailMessage :=
  foldr insert_desc [] l.

(** The service is taken as authenticated ([self.service] is set), so
    [authenticate()] returns at once. *)
Definition fetch_recent_messages (fuel : nat) (days : Z) : M (list GmailMessage) :=
  do t <- now;
  do after <- lift (after_timestamp t days);
  let query := "after:" +:+ pretty after in
  do messages <- list_loop fuel query None [];
  do hydrated <- hydrate_loop messages [];
  ret (sort_desc hydrated).

End client.

(** ** gmail_client.py: the account: scopes, authentication, drafts *)

Definition READONLY_SCOPE : string := "https://www.googleapis.com/auth/gmail.readonly".
Definition COMPOSE_SCOPE : string := "https://www.googleapis.com/auth/gmail.compose".
Definition DEFAULT_SCOPES : list string := [READONLY_SCOPE; COMPOSE_SCOPE].

(** What the client reads of a [Credentials] object. *)
Record Credentials := {
  valid : bool;
  expired : bool;
  refresh_token : option string;
  to_json : string;
}.

(** The attributes of a [GmailClient]; a service that has been built is
    held with the credentials it was built from. *)
Record GmailClient := {
  credentials_path : string;
  token_path : string;
  scopes : list string;
  service : option Credentials;
  compose_enabled : bool;
}.

(** The client, the files it reads and writes (by path), and the raw
    messages submitted to [drafts().create] so far. *)
Record Account := {
  client : GmailClient;
  files : gmap string string;
  submitted : list string;
}.

(** [creds.refresh(Request())] either leaves the credentials refreshed or
    raises [RefreshError]. *)
Inductive refreshed := Refreshed (creds : Credentials) | RefreshError.

(** The libraries of the account. The OAuth calls answer or raise the
    exception the client names; the request of the service is an [api]
    call like the others.
    - [from_authorized_user_file content scopes]: the credentials read
      from a token file of this content; [None] when reading raises.
    - [refresh creds]: [creds.refresh(Request())], which answers or raises
      [RefreshError].
    - [run_local_server secrets scopes]: the credentials granted by the
      consent flow built from a secrets file of this content.
    - [urlsafe_b64encode s]:
      [base64.urlsafe_b64encode(s.encode("utf-8")).decode("utf-8")].
    - [drafts_create raw]: [drafts().create(userId="me", body=...).execute()],
      which answers a dict that may hold an ["id"]. *)
Class AccountLibs := {
  from_authorized_user_file : string → list string → option Credentials;
  refresh : Credentials → refreshed;
  run_local_server : string → list string → Credentials;
  urlsafe_b64encode : string → string;
  drafts_create : string → api (option string);
}.

(** [GmailClient.__init__]: an absent or empty list of scopes gives the
    default ones. *)
Definition __init__ (credentials_path token_path : string) (scopes : option (list string))
    : GmailClient :=
  let scopes :=
    match scopes with
    | Some (scope :: more) => scope :: more
    | _ => DEFAULT_SCOPES
    end in
  {| credentials_path := credentials_path;
     token_path := token_path;
     scopes := scopes;
     service := None;
     compose_enabled := bool_decide (COMPOSE_SCOPE ∈ scopes) |}.

Definition crlf : string := String "013" (String "010" EmptyString).

Section account.
Context `{AccountLibs}.

(** The [try] block of [authenticate]: refresh the credentials that can be
    refreshed, run the consent flow otherwise; a missing secrets file and a
    refused refresh become a [RuntimeError]. *)
Definition obtain (self : GmailClient) (files : gmap string string)
    (creds : option Credentials) : outcome Credentials :=
  let flow :=
    match files !! credentials_path self with
    | None =>
        Raise (RuntimeError "credentials.json is missing. Follow the README to configure OAuth.")
    | Some secrets => Ret (run_local_server secrets (scopes self))
    end in
  match creds with
  | Some c =>
      if expired c && truthy_opt (refresh_token c) then
        match refresh c with
        | Refreshed c' => Ret c'
        | RefreshError =>
            Raise (RuntimeError "Failed to refresh OAuth token. Re-run the login flow.")
        end
      else flow
  | None => flow
  end.

(** [self.service = build(..., credentials=creds)] *)
Definition with_service (self : GmailClient) (creds : Credentials) : GmailClient :=
  {| credentials_path := credentials_path self;
     token_path := token_path self;
     scopes := scopes self;
     service := Some creds;
     compose_enabled := compose_enabled self |}.

Definition authenticate (acct : Account) : outcome unit * Account :=
  let self := client acct in
  match service self with
  | Some _ => (Ret tt, acct)
  | None =>
      let creds :=
        match files acct !! token_path self with
        | Some content => from_authorized_user_file content (scopes self)
        | None => None
        end in
      let renewed :=
        match obtain self (files acct) creds with
        | Ret creds =>
            (Ret tt,
             {| client := with_service self creds;
                files := <[token_path self := to_json creds]> (files acct);
                submitted := submitted acct |})
        | Raise e => (Raise e, acct)
        | OutOfFuel => (OutOfFuel, acct)
        end in
      match creds with
      | Some c =>
          if valid c then
            (Ret tt,
             {| client := with_service self c;
                files := files acct;
                submitted := submitted acct |})
          else renewed
      | None => renewed
      end
  end.

(** The envelope of a reply: three header lines, an empty line, the
    body. *)
Definition email_content (message : GmailMessage) (reply_body : string) : string :=
  let headers :=
    ["To: " +:+ sender message;
     "Subject: Re: " +:+ subject message;
     "Content-Type: text/plain; charset=UTF-8"] in
  String.concat crlf headers +:+ crlf +:+ crlf +:+ reply_body.

Definition create_draft (acct : Account) (message : GmailMessage) (reply_body : string)
    : outcome string * Account :=
  if negb (compose_enabled (client acct)) then
    (Raise (RuntimeError "Gmail compose scope not configured. Cannot save drafts."), acct)
  else
    match authenticate acct with
    | (Ret _, acct) =>
        let encoded_message := urlsafe_b64encode (email_content message reply_body) in
        let acct := {| client := client acct; files := files acct;
                       submitted := submitted acct ++ [encoded_message] |} in
        match drafts_create encoded_message with
        | Answer draft => (Ret (default "" draft), acct)
        | HttpError =>
            (Raise (RuntimeError "Unable to save draft to Gmail. Check your compose scope."),
             acct)
        | Fails e => (Raise e, acct)
        end
    | (Raise e, acct) => (Raise e, acct)
    | (OutOfFuel, acct) => (OutOfFuel, acct)
    end.

End account.
End gmail_client.

(** ** app.py: the scoring engine *)

Module app.
Import Py gmail_client.

Definition ACTION_WORDS : list string :=
  ["urgent"; "deadline"; "action"; "répond"; "reply"; "due"; "please"; "asap"].
Definition NEWSLETTER_PATTERNS : list string :=
  ["unsubscribe"; "newsletter"; "no-reply"; "noreply"; "bulletin"].

Section scoring.
Context `{StrOps}.

(** [f"{message.subject} {message.snippet} {message.body_text}".lower()] *)
Definition text_blob (message : GmailMessage) : string :=
  lower (subject message +:+ " " +:+ snippet message +:+ " " +:+ body_text message).

(** [score_message], with the reading of the clock [t] made explicit.
    Each [if] of the source updates the pair [(score, reasons)]. *)
Definition score_message (t : Z) (message : GmailMessage) : Z * list string :=
  let score := 0 in
  let reasons : list string := [] in
  let '(score, reasons) :=
    if unread message
    then (score + 25, reasons ++ ["Non lu"]) else (score, reasons) in
  let '(score, reasons) :=
    if negb (contains (lower (sender message)) "no-reply")
       && negb (contains (lower (sender message)) "noreply")
    then (score + 15, reasons ++ ["Expéditeur humain"]) else (score, reasons) in
  let text_blob := text_blob message in
  let '(score, reasons) :=
    if contains (subject message) "?" || any_in ACTION_WORDS text_blob
    then (score + 10, reasons ++ ["Contient une question ou action"]) else (score, reasons) in
  let '(score, reasons) :=
    if startswith (lower (subject message)) "re:" && (2 <? thread_size message)
    then (score + 10, reasons ++ ["Long fil 'Re:'"]) else (score, reasons) in
  let '(score, reasons) :=
    if starred message || important message
    then (score + 15, reasons ++ ["Marqué important"]) else (score, reasons) in
  let '(score, reasons) :=
    if t - date message <? 48 * 3600 * 1000000
    then (score + 10, reasons ++ ["Récent (<48h)"]) else (score, reasons) in
  let '(score, reasons) :=
    if cc_only message
    then (score - 10, reasons ++ ["Uniquement en copie"]) else (score, reasons) in
  let '(score, reasons) :=
    if any_in NEWSLETTER_PATTERNS text_blob
    then (score - 20, reasons ++ ["Newsletter présumée"]) else (score, reasons) in
  (Z.max 0 (Z.min 100 score), reasons).

End scoring.

Section filtering.
Context `{StrOps}.

(** [filter_messages]. The dates are naive datetimes read as UTC, in
    microseconds; [message.date] is already in UTC, so that
    [astimezone(tz.UTC).replace(tzinfo=None)] keeps its value. Each
    [continue] of the source is a branch that keeps [filtered] as it is. *)
Fixpoint filter_loop (messages : list (GmailMessage * Z * list string))
    (start_date end_date : Z) (unread_only : bool) (min_score : Z) (search_term : string)
    (filtered : list (GmailMessage * Z * list string))
    : list (GmailMessage * Z * list string) :=
  match messages with
  | [] => filtered
  | (message, score, reasons) :: rest =>
      let continue :=
        filter_loop rest start_date end_date unread_only min_score search_term filtered in
      let naive_date := date message in
      if negb ((start_date <=? naive_date) && (naive_date <=? end_date)) then continue
      else if unread_only && negb (unread message) then continue
      else if score <? min_score then continue
      else if truthy search_term
              && negb (contains
                         (lower (subject message +:+ " " +:+ sender message
                                 +:+ " " +:+ snippet message))
                         search_term)
      then continue
      else filter_loop rest start_date end_date unread_only min_score search_term
             (filtered ++ [(message, score, reasons)])
  end.

Definition filter_messages (messages : list (GmailMessage * Z * list string))
    (start_date end_date : Z) (unread_only : bool) (min_score : Z) (search_term : string)
    : list (GmailMessage * Z * list string) :=
  let filtered := [] in
  let search_term := lower search_term in
  filter_loop messages start_date end_date unread_only min_score search_term filtered.

End filtering.

(** [list.sort(key=..., reverse=True)] and [sorted(..., key=..., reverse=True)]:
    the stable sort, highest key first. *)
Fixpoint insert_by {A} (key : A → Z) (x : A) (l : list A) : list A :=
  match l with
  | [] => [x]
  | y :: l' => if key y <=? key x then x :: l else y :: insert_by key x l'
  end.

Definition sort_by {A} (key : A → Z) (l : list A) : list A :=
  foldr (insert_by key) [] l.

(** [l[:count]]: a negative count leaves that many items out at the end. *)
Definition slice_to {A} (count : Z) (l : list A) : list A :=
  if count <? 0 then take (length l - Z.to_nat (- count)) l
  else take (Z.to_nat count) l.

(** The order in which [main] shows the filtered messages: by score, or
    else by date, highest first. *)
Definition displayed (filtered : list (GmailMessage * Z * list string)) (sort_option : string)
    : list (GmailMessage * Z * list string) :=
  if decide (sort_option = "score") then sort_by (λ item, item.1.2) filtered
  else sort_by (λ item, date item.1.1) filtered.

(** The messages for which [render_bulk_mode] proposes a reply. *)
Definition top_messages (messages : list (GmailMessage * Z * list string)) (count : Z)
    : list (GmailMessage * Z * list string) :=
  slice_to count (sort_by (λ item, item.1.2) messages).

End app.

(** ** reply_generation.py *)

Module reply_generation.
Import Py gmail_client.

Record ReplyContext := {
  ctx_subject : string;
  ctx_sender : string;
  ctx_snippet : string;
  ctx_body_text : string;
}.

(** What the [try] block of [_call_openai_api] comes to: the text at
    [response["choices"][0]["message"]["content"]], or an exception (the
    request failed, the answer has another shape, ...). *)
Inductive completion := Content (text : string) | Raised (what : string).

(** The environment of the composer: [os.getenv("OPENAI_API_KEY")],
    whether [import openai] succeeded, and the remote service. *)
Class OpenAI := {
  OPENAI_API_KEY : option string;
  openai_imported : bool;
  ChatCompletion_create : string → completion;
}.

Definition nl : string := String "010" EmptyString.

Section composer.
Context `{StrOps} `{OpenAI}.

Definition _call_openai_api (prompt : string) : option string :=
  if negb (truthy_opt OPENAI_API_KEY) || negb openai_imported then None
  else match ChatCompletion_create prompt with
       | Content text => Some (strip text)
       | Raised _ => None
       end.

Definition _rule_based_reply (context : ReplyContext) : string :=
  let greeting :=
    "Bonjour " +:+ or_else (strip (before "<" (ctx_sender context))) "à tous" +:+ "," in
  let tldr :=
    strip ("TL;DR : " +:+ or_else (ctx_snippet context) (str_take 140 (ctx_body_text context))) in
  let next_step :=
    "N'hésite pas à me dire si tu as besoin d'informations supplémentaires." in
  greeting +:+ nl +:+ nl +:+ tldr +:+ nl +:+ nl +:+ next_step
    +:+ nl +:+ nl +:+ "Bien à vous," +:+ nl +:+ "[Votre nom]".

(** The [ReplyContext] built by [generate_reply]. *)
Definition reply_context (message : GmailMessage) : ReplyContext := {|
  ctx_subject := subject message;
  ctx_sender := sender message;
  ctx_snippet := snippet message;
  ctx_body_text := or_else (body_text message) (snippet message);
|}.

(** The prompt built by [generate_reply]: the template, formatted. *)
Definition reply_prompt (context : ReplyContext) : string :=
  "Email subject: " +:+ ctx_subject context +:+ nl
  +:+ "From: " +:+ ctx_sender context +:+ nl
  +:+ "Summary/snippet: " +:+ ctx_snippet context +:+ nl
  +:+ "Body: " +:+ str_take 2000 (ctx_body_text context) +:+ nl
  +:+ "Compose a brief and polite reply in French, include a TL;DR sentence and one clarifying question "
  +:+ "if more information is required.".

Definition generate_reply (message : GmailMessage) : string :=
  let context := reply_context message in
  let prompt := reply_prompt context in
  let ai_reply := _call_openai_api prompt in
  if truthy_opt ai_reply then default "" ai_reply
  else _rule_based_reply context.

End composer.
End reply_generation.

(** ** task_dashboard.py *)

Module task_dashboard.
Import Py.

Definition DAYS_ORDER : list string :=
  ["Lundi"; "Mardi"; "Mercredi"; "Jeudi"; "Vendredi"; "Samedi"; "Dimanche"].

(** A list index out of range is the one exception of this file. *)
Inductive result (A : Type) := Ok (a : A) | IndexError.
Arguments Ok {A} a.
Arguments IndexError {A}.

Definition rbind {A B} (r : result A) (k : A → result B) : result B :=
  match r with
  | Ok a => k a
  | IndexError => IndexError
  end.

(** *** [format_table] *)

(** The inner loop [for idx, cell in enumerate(row)], from index [idx]
    on: [widths[idx] = max(widths[idx], len(cell))]. *)
Fixpoint widen_row (widths : list nat) (idx : nat) (row : list string) : result (list nat) :=
  match row with
  | [] => Ok widths
  | cell :: rest =>
      match widths !! idx with
      | None => IndexError
      | Some w => widen_row (<[idx := Nat.max w (str_len cell)]> widths) (S idx) rest
      end
  end.

(** The outer loop [for row in rows]. *)
Fixpoint widen (widths : list nat) (rows : list (list string)) : result (list nat) :=
  match rows with
  | [] => Ok widths
  | row :: rest => rbind (widen_row widths O row) (λ widths, widen widths rest)
  end.

(** The cells of [format_row], from index [idx] on:
    [cell.ljust(widths[idx])]. *)
Fixpoint padded_cells (widths : list nat) (idx : nat) (row : list string)
    : result (list string) :=
  match row with
  | [] => Ok []
  | cell :: rest =>
      match widths !! idx with
      | None => IndexError
      | Some w =>
          rbind (padded_cells widths (S idx) rest) (λ cells, Ok (ljust w cell :: cells))
      end
  end.

Definition format_row (widths : list nat) (row : list string) : result string :=
  rbind (padded_cells widths O row) (λ cells, Ok (join " | " cells)).

Fixpoint format_rows (widths : list nat) (rows : list (list string)) : result (list string) :=
  match rows with
  | [] => Ok []
  | row :: rest =>
      rbind (format_row widths row) (λ line,
      rbind (format_rows widths rest) (λ lines, Ok (line :: lines)))
  end.

(** The lines of the table: the header, the separator, one line per
    row. *)
Definition table_lines (headers : list string) (rows : list (list string))
    : result (list string) :=
  let widths := str_len <$> headers in
  rbind (widen widths rows) (λ widths,
  let sep := join "-+-" (str_repeat "-" <$> widths) in
  rbind (format_row widths headers) (λ head,
  rbind (format_rows widths rows) (λ body,
  Ok (head :: sep :: body)))).

Definition newline : string := String "010" EmptyString.

Definition format_table (headers : list string) (rows : list (list string)) : result string :=
  rbind (table_lines headers rows) (λ lines, Ok (join newline lines)).

(** *** [Task] and [WeeklyDashboard] *)

Section dashboard.
(** Hours are floats; of their operations only the [g] format is taken,
    as given. *)
Context {float : Type} (format_g : float → string).

Record Task := {
  day : string;
  time_slot : string;
  title : string;
  category : string;
  estimate_hours : float;
  status : string;
  notes : string;
  STATUS_EMOJIS : gmap string string;
}.

(** The default of the field [STATUS_EMOJIS]. *)
Definition default_emojis : gmap string string :=
  list_to_map [("À faire", "📝"); ("En cours", "⏳"); ("Terminé", "✅"); ("Bloqué", "⛔")].

Definition status_badge (self : Task) : string :=
  let emoji := default "⬜" (STATUS_EMOJIS self !! status self) in
  emoji +:+ "  " +:+ status self.

Record WeeklyDashboard := {
  week_label : string;
  _tasks : list Task;
}.

Definition add_task (self : WeeklyDashboard) (task : Task) : WeeklyDashboard :=
  {| week_label := week_label self; _tasks := _tasks self ++ [task] |}.

Definition add_tasks (self : WeeklyDashboard) (tasks : list Task) : WeeklyDashboard :=
  foldl add_task self tasks.

(** [list.sort(key=lambda t: t.time_slot)]: the stable sort, earliest slot
    first. *)
Fixpoint insert_slot (x : Task) (l : list Task) : list Task :=
  match l with
  | [] => [x]
  | y :: l' => if str_le (time_slot x) (time_slot y) then x :: l else y :: insert_slot x l'
  end.

Definition sort_slots (l : list Task) : list Task := foldr insert_slot [] l.

Definition by_day (self : WeeklyDashboard) : gmap string (list Task) :=
  let grouped :=
    foldl (λ grouped task,
             <[day task := default [] (grouped !! day task) ++ [task]]> grouped)
          ∅ (_tasks self) in
  sort_slots <$> grouped.

Definition status_summary (self : WeeklyDashboard) : gmap string nat :=
  foldl (λ summary task,
           <[status task := S (default O (summary !! status task))]> summary)
        ∅ (_tasks self).

Definition _render_header (self : WeeklyDashboard) : string :=
  let title := "Tableau de bord — " +:+ week_label self in
  let line := str_repeat "=" (str_len title) in
  title +:+ newline +:+ line +:+ newline.

Definition _render_day (day : string) (tasks : list Task) : result string :=
  let headers := ["Créneau"; "Tâche"; "Catégorie"; "Durée"; "Statut"] in
  let rows :=
    (λ task, [time_slot task; title task; category task;
              format_g (estimate_hours task) +:+ " h"; status_badge task]) <$> tasks in
  rbind (format_table headers rows) (λ table,
  Ok (newline +:+ day +:+ newline +:+ str_repeat "-" (str_len day) +:+ newline +:+ table)).

(** The loop [for day in DAYS_ORDER] of [_render_day_tables], over the
    days that remain. *)
Fixpoint render_days (grouped : gmap string (list Task)) (days : list string)
    : result (list string) :=
  match days with
  | [] => Ok []
  | day :: rest =>
      match grouped !! day with
      | Some (task :: tasks) =>
          rbind (_render_day day (task :: tasks)) (λ section,
          rbind (render_days grouped rest) (λ sections, Ok (section :: sections)))
      | _ => render_days grouped rest
      end
  end.

Definition _render_day_tables (self : WeeklyDashboard) : result string :=
  rbind (render_days (by_day self) DAYS_ORDER) (λ sections, Ok (join newline sections)).

End dashboard.
End task_dashboard.

(** ** Fixtures: instances for running the model *)

Module fixtures.
Import Py gmail_client reply_generation.

(** The pieces of text of a markup, standing for the strings that
    [get_text] joins: what lies between [<] and [>] is dropped, and a tag
    ends the piece before it. *)
Fixpoint text_pieces (inside : bool) (s : string) : list string :=
  match s with
  | EmptyString => [EmptyString]
  | String c s' =>
      if decide (c = "<"%char) then EmptyString :: text_pieces true s'
      else if decide (c = ">"%char) then text_pieces false s'
      else if inside then text_pieces inside s'
      else match text_pieces inside s' with
           | piece :: rest => String c piece :: rest
           | [] => [String c EmptyString]
           end
  end.

(** The libraries on the few strings the examples use: dateutil accepts
    the RFC 2822 date of the table and rejects free text; base64 decodes
    the three padded words of the table and raises on a word whose length
    is not a multiple of four; [prettify] is given on the one markup that is
    decoded, which BeautifulSoup renders with the tag, the text and the
    closing tag each on a line of its own; [get_text] joins the non-empty
    pieces of text with a newline. *)
Definition dates : gmap string Z :=
  list_to_map [("Thu, 01 Jan 1970 00:00:10 +0000", 10000000)].
Definition words : gmap string string :=
  list_to_map [("SGVsbG8=", "Hello"); ("PHA-SGk8L3A-", "<p>Hi</p>"); ("V29ybGQ=", "World")].
Definition pretty_p_hi : string :=
  "<p>" +:+ nl +:+ " Hi" +:+ nl +:+ "</p>" +:+ nl.

Definition StubLibs : Libs := {|
  date_parse s := dates !! s;
  b64decode_utf8 s := words !! s;
  prettify s := if decide (s = "<p>Hi</p>") then pretty_p_hi else s;
  get_text s := String.concat nl (List.filter truthy (text_pieces false s));
|}.

(** A clock that advances by one millisecond at each reading. *)
Definition t0 : Z := 1700000000000000.
Definition StubClock : Clock := {| clock k := t0 + 1000 * Z.of_nat k |}.

(** A message without headers, labels or body. *)
Definition bare (mid : string) : MessageResource := {|
  res_id := Some mid;
  res_threadId := None;
  res_labelIds := [];
  res_snippet := None;
  res_payload := no_payload;
|}.

(** A service that lists the given pages, the k-th behind the token
    [pretty k]; a page may also be a failure. *)
Definition page_index (n : nat) (page_token : option string) : option nat :=
  match page_token with
  | None => Some O
  | Some s => snd <$> list_find (λ k, pretty k = s) (seq 1 (n - 1))
  end.

Definition paged_list (pages : list (api (list (option string))))
    (page_token : option string) : api ListResponse :=
  match page_index (length pages) page_token with
  | None => HttpError
  | Some k =>
      match pages !! k with
      | Some (Answer ids) =>
          Answer {| list_messages := ids;
                    nextPageToken :=
                      if decide (S k < length pages)%nat then Some (pretty (S k)) else None |}
      | Some (Fails e) => Fails e
      | _ => HttpError
      end
  end.

Definition PagedService (pages : list (api (list (option string))))
    (get : string → api MessageResource) : Service := {|
  messages_list _ page_token := paged_list pages page_token;
  messages_get := get;
  threads_get _ := HttpError;
|}.

(** [n] identifiers from [m<start>] on. *)
Definition ids (start n : nat) : list (option string) :=
  (λ k, Some ("m" +:+ pretty k)) <$> seq start n.

(** Three pages of 100, 100 and 7 identifiers. *)
Definition three_pages : list (api (list (option string))) :=
  [Answer (ids 0 100); Answer (ids 100 100); Answer (ids 200 7)].

Definition ThreePages : Service := PagedService three_pages (λ mid, Answer (bare mid)).





(** One page with the single identifier [m0], whose detail is [r] and
    whose thread lookup answers [thread]. *)
Definition OneMessage (r : MessageResource) (thread : api ThreadResource) : Service := {|
  messages_list _ page_token := paged_list [Answer [Some "m0"]] page_token;
  messages_get _ := Answer r;
  threads_get _ := thread;
|}.

(** A detail answer with the given headers and MIME tree, in thread [t0]. *)
Definition resource (hs : list Header) (mime : option string) (d : option string)
    (ps : list Payload) : MessageResource := {|
  res_id := Some "m0";
  res_threadId := Some "t0";
  res_labelIds := ["INBOX"; "UNREAD"];
  res_snippet := Some "hello";
  res_payload := Part mime hs d ps;
|}.

(** The multipart message of the specification: a plain child [Hello]
    and an HTML child [<p>Hi</p>]. *)
Definition hello_hi : Payload :=
  Part (Some "multipart/alternative") [] None
    [Part (Some "text/plain") [] (Some "SGVsbG8=") [];
     Part (Some "text/html") [] (Some "PHA-SGk8L3A-") []].

(** No key in the environment: the composer has no service to call. *)
Definition NoOpenAI : OpenAI := {|
  OPENAI_API_KEY := None;
  openai_imported := false;
  ChatCompletion_create _ := Raised "unreachable";
|}.

(** A configured service whose request fails. *)
Definition FailingOpenAI : OpenAI := {|
  OPENAI_API_KEY := Some "sk-test";
  openai_imported := true;
  ChatCompletion_create _ := Raised "APIConnectionError";
|}.

(** A service that never stops: every page carries a token. *)
Definition Endless : Service := {|
  messages_list _ _ := Answer {| list_messages := [Some "m0"]; nextPageToken := Some "more" |};
  messages_get mid := Answer (bare mid);
  threads_get _ := HttpError;
|}.

(** An unread, starred reply with a question, in a thread of three. *)
Definition top_message : GmailMessage := {|
  id := "m0"; thread_id := "t0"; subject := "Re: lunch?"; sender := "Bob <bob@example.com>";
  date := t0; snippet := ""; labels := ["UNREAD"; "STARRED"];
  unread := true; starred := true; important := false; thread_size := 3;
  body_text := ""; body_html := ""; to := "me@example.com"; cc := "";
  cc_only := false;
|}.

(** Base64 with the URL-safe alphabet and padding, standing for
    [urlsafe_b64encode] on the bytes of a string. *)
Definition base64_alphabet : string :=
  "ABCDEFGHIJKLMNOPQRSTUVWXYZabcdefghijklmnopqrstuvwxyz0123456789-_".

Definition base64_digit (n : N) : string :=
  match String.get (N.to_nat n) base64_alphabet with
  | Some c => String c EmptyString
  | None => EmptyString
  end.

Fixpoint base64_encode (bytes : list N) : string :=
  match bytes with
  | [] => EmptyString
  | [a] =>
      let n := (a * 65536)%N in
      base64_digit (n / 262144) +:+ base64_digit (n / 4096 mod 64) +:+ "=="
  | [a; b] =>
      let n := (a * 65536 + b * 256)%N in
      base64_digit (n / 262144) +:+ base64_digit (n / 4096 mod 64)
        +:+ base64_digit (n / 64 mod 64) +:+ "="
  | a :: b :: c :: rest =>
      let n := (a * 65536 + b * 256 + c)%N in
      base64_digit (n / 262144) +:+ base64_digit (n / 4096 mod 64)
        +:+ base64_digit (n / 64 mod 64) +:+ base64_digit (n mod 64)
        +:+ base64_encode rest
  end.

Definition valid_creds : Credentials :=
  {| valid := true; expired := false; refresh_token := Some "r"; to_json := "valid-token" |}.
Definition expired_creds : Credentials :=
  {| valid := false; expired := true; refresh_token := Some "r"; to_json := "expired-token" |}.
Definition revoked_creds : Credentials :=
  {| valid := false; expired := true; refresh_token := Some "x"; to_json := "revoked-token" |}.
Definition refreshed_creds : Credentials :=
  {| valid := true; expired := false; refresh_token := Some "r"; to_json := "refreshed-token" |}.
Definition granted_creds : Credentials :=
  {| valid := true; expired := false; refresh_token := Some "g"; to_json := "granted-token" |}.

(** Token files hold the JSON of their credentials; the refresh of the
    revoked ones is refused; the service answers a draft [d1]. *)
Definition StubAccountLibs : AccountLibs := {|
  from_authorized_user_file content _ :=
    (list_to_map [("valid-token", valid_creds); ("expired-token", expired_creds);
                  ("revoked-token", revoked_creds)] : gmap string Credentials) !! content;
  refresh c := if decide (refresh_token c = Some "r") then Refreshed refreshed_creds else RefreshError;
  run_local_server _ _ := granted_creds;
  urlsafe_b64encode s := base64_encode (N_of_ascii <$> list_ascii_of_string s);
  drafts_create _ := Answer (Some "d1");
|}.

(** A new client with the default paths and scopes, and the files given. *)
Definition account (files : list (string * string)) : Account := {|
  client := __init__ "credentials.json" "token.json" None;
  files := list_to_map files;
  submitted := [];
|}.

End fixtures.

(** ** The specification's vocabulary *)

Module spec.
Import Py gmail_client app.
Local Open Scope py_scope.

Section rules.
Context `{StrOps}.






(** What the filters of the sidebar ask of a scored message: a date in the
    window, unread when only those are wanted, a score that reaches the
    minimum, and the lowered search term, when there is one, somewhere in
    the lowered subject, sender and snippet. *)
Definition passes (start_date end_date : Z) (unread_only : bool) (min_score : Z)
    (search_term : string) (item : GmailMessage * Z * list string) : Prop :=
  let '(message, score, _) := item in
  start_date ≤ date message ≤ end_date
  ∧ (unread_only = true → unread message = true)
  ∧ min_score ≤ score
  ∧ (lower search_term ≠ "" →
     contains (lower (subject message +:+ " " +:+ sender message +:+ " " +:+ snippet message))
       (lower search_term) = true).

#[global] Instance passes_dec start_date end_date unread_only min_score search_term item :
  Decision (passes start_date end_date unread_only min_score search_term item).
Proof. destruct item as [[message score] reasons]. unfold passes. apply _. Defined.

End rules.
Section pipeline.
Context `{StrOps} `{Libs} `{Service} `{Clock}.

(** The listing served from [page_token] on is the given non-empty
    sequence of pages: every page but the last carries a continuation
    token, and the token leads to the next page. *)
Inductive paged (q : string) : option string → list (list (option string)) → Prop :=
| paged_last page_token ids next :
    messages_list q page_token
      = Answer {| list_messages := ids; nextPageToken := next |} →
    truthy_opt next = false →
    paged q page_token [ids]
| paged_more page_token ids next pages :
    messages_list q page_token
      = Answer {| list_messages := ids; nextPageToken := Some next |} →
    truthy next = true →
    paged q (Some next) pages →
    paged q page_token (ids :: pages).





(** The thread lookup that this identifier leads to, if it leads to one,
    is answered or refused with [HttpError]: it raises nothing else. *)
Definition thread_settles (thread_id : option string) : Prop :=
  ∀ tid e, thread_id = Some tid → truthy tid = true → threads_get tid ≠ Fails e.

(** The entry hydrates to a message, whenever it is asked. *)
Definition hydrates (message_id : option string) : Prop :=
  ∀ w, ∃ m w', _hydrate_message message_id w = (Ret (Some m), w').

(** The listing calls among the calls made. *)
Definition list_calls (w : World) : list Call :=
  List.filter is_list_call (calls w).

(** Latest first. *)
Definition descending (l : list GmailMessage) : Prop :=
  StronglySorted (λ a b, date b ≤ date a) l.

Definition outcome_map {A B} (f : A → B) (o : outcome A) : outcome B :=
  match o with
  | Ret a => Ret (f a)
  | Raise e => Raise e
  | OutOfFuel => OutOfFuel
  end.

(** The decoded content of the first child of type [mime] whose decoded
    content is not empty; the empty string when there is none. *)
Fixpoint first_filled (mime : string) (ps : list Payload) : outcome string :=
  match ps with
  | [] => Ret ""
  | p :: rest =>
      if is_mime p mime then
        try s <- _decode p;
        if truthy s then Ret s else first_filled mime rest
      else first_filled mime rest
  end.

(** The first child of type [mime], if any. *)
Fixpoint first_child (mime : string) (ps : list Payload) : option Payload :=
  match ps with
  | [] => None
  | p :: rest => if is_mime p mime then Some p else first_child mime rest
  end.

(** Case-insensitive lookup among the headers: the value of the last
    header whose name, lowered, is [k]. *)
Definition find_header (hs : list Header) (k : string) : option string :=
  value <$> last (filter (λ h, lower (name h) = k) hs).

(** A header names the user when it mentions the user's address. *)
Definition names_user (user header : string) : bool :=
  contains (lower header) (lower user).

(** The listing never ends: whatever the token, the answer carries a
    further token. *)
Definition endless (q : string) : Prop :=
  ∀ page_token, ∃ ids next,
    messages_list q page_token
      = Answer {| list_messages := ids; nextPageToken := Some next |}
    ∧ truthy next = true.

(** The identifiers asked for in detail, in the order of the requests. *)
Definition get_calls (cs : list Call) : list string :=
  omap (λ c, match c with GetCall mid => Some mid | _ => None end) cs.

(** The thread lookups among the calls. *)
Definition thread_calls (cs : list Call) : list string :=
  omap (λ c, match c with ThreadCall tid => Some tid | _ => None end) cs.

(** The listed entries that carry an identifier. *)
Definition identified (entries : list (option string)) : list string :=
  omap (λ x, match x with
             | Some mid => if truthy mid then Some mid else None
             | None => None
             end) entries.

(** A part without its headers and without its own children. *)
Definition shallow (p : Payload) : Payload := Part (mimeType p) [] (data p) [].

(** What follows the detail request of a hydration: nothing, or one thread
    lookup. *)
Definition thread_at_most (e : list Call) : Prop :=
  e = [] ∨ ∃ tid, e = [ThreadCall tid].

End pipeline.

(** The sum of the counts of a summary: [sum(summary.values())]. *)
Definition total_count (summary : gmap string nat) : nat :=
  map_fold (λ _ n acc, (n + acc)%nat) O summary.

End spec.

(** * Properties *)

Import Py gmail_client app reply_generation spec.
Local Open Scope py_scope.

(** ** Scoring engine *)

Section scoring_facts.
Context `{StrOps}.



End scoring_facts.

(** ** Reply composer *)

Section composer_facts.
Context `{StrOps} `{OpenAI}.

Lemma truthy_nonempty (s : string) : truthy s = true ↔ s ≠ "".
Proof. destruct s; cbn; split; congruence. Qed.

(** The template starts with its greeting, whatever the message holds. *)
Lemma rule_based_reply_nonempty (context : ReplyContext) :
  truthy (_rule_based_reply context) = true.
Proof. reflexivity. Qed.

(** What [_call_openai_api] returns: [None] unless a key is set, the
    module is there and the request answers. *)
Lemma call_openai_api_cases (prompt : string) :
  _call_openai_api prompt =
    match ChatCompletion_create prompt with
    | Content text =>
        if truthy_opt OPENAI_API_KEY && openai_imported then Some (strip text) else None
    | Raised _ => None
    end.
Proof.
  unfold _call_openai_api.
  destruct (truthy_opt OPENAI_API_KEY), openai_imported, (ChatCompletion_create prompt);
    reflexivity.
Qed.

(** C7. [generate_reply] is a total function to strings, and its result
    is never empty. Without a key, without the [openai] module, when the
    request raises, or when the answer is blank, the result is the
    template reply; otherwise it is the stripped answer of the service. *)
Theorem generate_reply_never_fails (m : GmailMessage) :
  let context := reply_context m in
  let prompt := reply_prompt context in
  generate_reply m ≠ ""
  ∧ (truthy_opt OPENAI_API_KEY = false → generate_reply m = _rule_based_reply context)
  ∧ (openai_imported = false → generate_reply m = _rule_based_reply context)
  ∧ (∀ e, ChatCompletion_create prompt = Raised e →
       generate_reply m = _rule_based_reply context)
  ∧ (∀ text, ChatCompletion_create prompt = Content text → strip text = "" →
       generate_reply m = _rule_based_reply context)
  ∧ (generate_reply m = _rule_based_reply context
     ∨ ∃ text, ChatCompletion_create prompt = Content text
               ∧ generate_reply m = strip text).
Proof.
  intros context prompt. unfold generate_reply. fold context. fold prompt.
  rewrite call_openai_api_cases.
  repeat split.
  - apply truthy_nonempty.
    destruct (ChatCompletion_create prompt) as [text|e];
      [destruct (truthy_opt OPENAI_API_KEY && openai_imported);
       [cbn; destruct (truthy (strip text)) eqn:E; [exact E|]|]|];
      apply rule_based_reply_nonempty.
  - intros ->. by destruct (ChatCompletion_create prompt).
  - intros ->. rewrite andb_false_r. by destruct (ChatCompletion_create prompt).
  - by intros e ->.
  - intros text -> Hblank. cbn.
    destruct (truthy_opt OPENAI_API_KEY && openai_imported); cbn; [|done].
    by rewrite Hblank.
  - destruct (ChatCompletion_create prompt) as [text|e]; [|by left].
    destruct (truthy_opt OPENAI_API_KEY && openai_imported); cbn; [|by left].
    destruct (truthy (strip text)); [right; by exists text | by left].
Qed.

End composer_facts.

(** ** Body extractor *)

Section extractor_facts.
Context `{Libs}.

Lemma is_mime_exclusive (p : Payload) (m1 m2 : string) :
  m1 ≠ m2 → is_mime p m1 = true → is_mime p m2 = false.
Proof.
  unfold is_mime. intros Hne H1%bool_decide_eq_true.
  apply bool_decide_eq_false. congruence.
Qed.

(** [_decode] raises nothing but the error of base64. *)
Lemma decode_outcome (p : Payload) :
  (∃ s, _decode p = Ret s) ∨ _decode p = Raise BinasciiError.
Proof.
  unfold _decode. destruct (data p) as [d|]; [|eauto].
  destruct (truthy d); cbn; [|eauto].
  destruct (b64decode_utf8 d); [|eauto].
  destruct (is_mime p "text/html"); eauto.
Qed.

Lemma first_filled_outcome (mime : string) (ps : list Payload) :
  (∃ s, first_filled mime ps = Ret s) ∨ first_filled mime ps = Raise BinasciiError.
Proof.
  induction ps as [|p ps IH]; cbn; [eauto|].
  destruct (is_mime p mime); [|exact IH].
  destruct (decode_outcome p) as [[s ->] | ->]; cbn; [|eauto].
  destruct (truthy s); eauto.
Qed.

(** A part without data, or with empty data, decodes to the empty
    string. *)
Lemma decode_missing (p : Payload) :
  data p = None ∨ data p = Some "" → _decode p = Ret "".
Proof. unfold _decode. by intros [-> | ->]. Qed.

Lemma decode_plain (p : Payload) (d s : string) :
  is_mime p "text/plain" = true → data p = Some d → truthy d = true →
  b64decode_utf8 d = Some s → _decode p = Ret s.
Proof.
  intros Hm Hd Ht Hs. unfold _decode. rewrite Hd, Ht, Hs. cbn.
  by rewrite (is_mime_exclusive p "text/plain" "text/html").
Qed.

Lemma decode_html (p : Payload) (d s : string) :
  is_mime p "text/html" = true → data p = Some d → truthy d = true →
  b64decode_utf8 d = Some s → _decode p = Ret (prettify s).
Proof.
  intros Hm Hd Ht Hs. unfold _decode. by rewrite Hd, Ht, Hs, Hm.
Qed.

(** The two slots of the scan are filled independently: each keeps what
    it holds when that is not empty, and otherwise takes the first child
    of its type with some content. *)
Lemma scan_parts_slots (ps : list Payload) (text html : string) :
  scan_parts ps text html =
    try t <- (if truthy text then Ret text else first_filled "text/plain" ps);
    try h <- (if truthy html then Ret html else first_filled "text/html" ps);
    Ret (t, h).
Proof.
  revert text html. induction ps as [|p ps IH]; intros text html.
  - cbn. by destruct text, html.
  - cbn [scan_parts first_filled].
    destruct (is_mime p "text/plain") eqn:Hplain.
    + rewrite (is_mime_exclusive p "text/plain" "text/html") by done.
      destruct (truthy text) eqn:Htext; cbn [andb negb].
      * rewrite IH, Htext. reflexivity.
      * destruct (decode_outcome p) as [[s ->] | ->]; cbn [obind]; [|done].
        rewrite IH. by destruct (truthy s).
    + cbn [andb]. destruct (is_mime p "text/html") eqn:Hhtml; cbn [andb].
      * destruct (truthy html) eqn:Hh; cbn [negb].
        -- rewrite IH, Hh. reflexivity.
        -- destruct (decode_outcome p) as [[s ->] | ->]; cbn [obind].
           ++ rewrite IH. by destruct (truthy s).
           ++ destruct (truthy text); [done|].
              by destruct (first_filled_outcome "text/plain" ps) as [[s ->] | ->].
      * apply IH.
Qed.

Lemma first_filled_first_child (mime : string) (ps : list Payload) (p : Payload) (s : string) :
  first_child mime ps = Some p → _decode p = Ret s → truthy s = true →
  first_filled mime ps = Ret s.
Proof.
  induction ps as [|q ps IH]; cbn; [done|].
  destruct (is_mime q mime); [|exact IH].
  intros [= ->] -> Hs. cbn. by rewrite Hs.
Qed.

Lemma first_child_mime (mime : string) (ps : list Payload) (p : Payload) :
  first_child mime ps = Some p → is_mime p mime = true ∧ p ∈ ps.
Proof.
  induction ps as [|q ps IH]; cbn; [done|].
  destruct (is_mime q mime) eqn:Hq.
  - intros [= ->]. split; [done | apply list_elem_of_here].
  - intros Hp. destruct (IH Hp). split; [done | by apply list_elem_of_further].
Qed.

(** C4, as the code has it. For a multipart payload (a root that is
    neither [text/plain] nor [text/html]) whose first [text/plain] child
    decodes to a non-empty text and whose first [text/html] child decodes
    to markup with a non-empty prettified form, [bodyText] is the decoded
    plain text verbatim and [bodyHtml] is [prettify()] of the decoded
    markup. *)
Theorem extract_bodies_plain_and_html (payload p h : Payload) (dp dh t x : string) :
  is_mime payload "text/plain" = false →
  is_mime payload "text/html" = false →
  first_child "text/plain" (parts payload) = Some p →
  first_child "text/html" (parts payload) = Some h →
  data p = Some dp → truthy dp = true → b64decode_utf8 dp = Some t → truthy t = true →
  data h = Some dh → truthy dh = true → b64decode_utf8 dh = Some x →
  truthy (prettify x) = true →
  _extract_bodies payload = Ret (t, prettify x).
Proof.
  intros Hroot1 Hroot2 Hp Hh Hdp Hdpt Ht Htt Hdh Hdht Hx Hxt.
  destruct (first_child_mime _ _ _ Hp) as [Hmp _].
  destruct (first_child_mime _ _ _ Hh) as [Hmh _].
  unfold _extract_bodies. rewrite Hroot1, Hroot2, scan_parts_slots. cbn [truthy].
  rewrite (first_filled_first_child _ _ p t Hp (decode_plain p dp t Hmp Hdp Hdpt Ht) Htt).
  rewrite (first_filled_first_child _ _ h _ Hh (decode_html h dh x Hmh Hdh Hdht Hx) Hxt).
  cbn. by rewrite Htt.
Qed.

(** C9, as the code has it. The scan of the children fills each slot
    with the decoded content of the first child of its type whose content
    is not empty; a slot that holds a non-empty content is never
    overwritten; and the first child of a type is the one used whenever
    its content is not empty. *)
Theorem scan_parts_first_filled (ps : list Payload) :
  scan_parts ps "" "" =
    (try t <- first_filled "text/plain" ps;
     try h <- first_filled "text/html" ps;
     Ret (t, h))
  ∧ (∀ text html t h, scan_parts ps text html = Ret (t, h) →
       (truthy text = true → t = text) ∧ (truthy html = true → h = html))
  ∧ (∀ mime p s, first_child mime ps = Some p → _decode p = Ret s → truthy s = true →
       first_filled mime ps = Ret s).
Proof.
  split; [by rewrite scan_parts_slots|]. split.
  - intros text html t h. rewrite scan_parts_slots.
    destruct (truthy text), (truthy html); cbn [obind].
    + intros [= <- <-]. done.
    + destruct (first_filled "text/html" ps); [|done..]. intros [= <- <-]. done.
    + destruct (first_filled "text/plain" ps); [|done..]. cbn. intros [= <- <-]. done.
    + destruct (first_filled "text/plain" ps); [|done..]. cbn.
      destruct (first_filled "text/html" ps); [|done..]. intros [= <- <-]. done.
  - intros mime p s. apply first_filled_first_child.
Qed.

End extractor_facts.

(** ** Message fetcher *)

Section fetch_facts.
Context `{StrOps} `{Libs} `{Service} `{Clock}.

(** *** The final sort *)

Lemma insert_desc_perm (x : GmailMessage) (l : list GmailMessage) :
  insert_desc x l ≡ₚ x :: l.
Proof.
  induction l as [|y l IH]; cbn; [done|].
  destruct (date y <=? date x); [done|].
  rewrite IH. apply Permutation_swap.
Qed.

Lemma sort_desc_perm (l : list GmailMessage) : sort_desc l ≡ₚ l.
Proof.
  induction l as [|x l IH]; cbn; [done|].
  fold (sort_desc l). by rewrite insert_desc_perm, IH.
Qed.

Lemma insert_desc_descending (x : GmailMessage) (l : list GmailMessage) :
  descending l → descending (insert_desc x l).
Proof.
  unfold descending. induction 1 as [|y l Hl IH Hy]; cbn.
  - repeat constructor.
  - destruct (date y <=? date x) eqn:E.
    + apply Z.leb_le in E. constructor; [by constructor|].
      constructor; [done|]. eapply Forall_impl; [exact Hy|]. cbn. lia.
    + apply Z.leb_gt in E. constructor; [done|].
      rewrite insert_desc_perm. constructor; [lia | done].
Qed.

Lemma sort_desc_descending (l : list GmailMessage) : descending (sort_desc l).
Proof.
  induction l as [|x l IH]; cbn; [constructor|].
  by apply insert_desc_descending.
Qed.

(** *** The listing loop *)

Lemma list_loop_paged (q : string) (page_token : option string)
    (pages : list (list (option string))) :
  paged q page_token pages →
  ∀ fuel acc w, (length pages ≤ fuel)%nat →
  ∃ listing,
    length listing = length pages
    ∧ forallb is_list_call listing = true
    ∧ list_loop fuel q page_token acc w
      = (Ret (acc ++ concat pages), {| calls := calls w ++ listing; ticks := ticks w |}).
Proof.
  induction 1 as [tok ids next Hlist Hnext | tok ids next pages Hlist Hnext _ IH];
    intros [|fuel] acc w Hfuel; cbn in Hfuel; try lia.
  - exists [ListCall q tok]. repeat split.
    cbn [list_loop]. unfold bind, emit. rewrite Hlist. cbn.
    rewrite Hnext. cbn. by rewrite app_nil_r.
  - destruct (IH fuel (acc ++ ids)
                {| calls := calls w ++ [ListCall q tok]; ticks := ticks w |})
      as (listing & Hlen & Hall & Hrun); [lia|].
    exists (ListCall q tok :: listing). split; [cbn; lia|]. split; [done|].
    cbn [list_loop]. unfold bind, emit. rewrite Hlist. cbn.
    rewrite Hnext. cbn. rewrite Hrun. cbn. by rewrite <- !(assoc_L (++)).
Qed.



(** *** Hydration: the frame of its effects *)

Lemma advance_0 (w : World) : advance w [] 0 = w.
Proof. destruct w; unfold advance; cbn. by rewrite app_nil_r, Nat.add_0_r. Qed.

Lemma advance_advance (w : World) (e1 e2 : list Call) (k1 k2 : nat) :
  advance (advance w e1 k1) e2 k2 = advance w (e1 ++ e2) (k1 + k2).
Proof. unfold advance; cbn. by rewrite (assoc_L (++)), Nat.add_assoc. Qed.

Lemma framed_ret {A} (a : A) : framed (ret a).
Proof.
  intros w1 w2 _. exists (Ret a), [], 0%nat. by rewrite !advance_0.
Qed.

Lemma framed_raise {A} (e : exn) : framed (@raise A e).
Proof.
  intros w1 w2 _. exists (Raise e), [], 0%nat. by rewrite !advance_0.
Qed.

Lemma framed_lift {A} (o : outcome A) : o ≠ OutOfFuel → framed (lift o).
Proof.
  intros Ho w1 w2 _. exists o, [], 0%nat. by rewrite !advance_0.
Qed.

Lemma framed_emit (c : Call) : is_list_call c = false → framed (emit c).
Proof.
  intros Hc w1 w2 _. exists (Ret tt), [c], 0%nat.
  unfold emit, advance. rewrite !Nat.add_0_r. cbn. by rewrite Hc.
Qed.

Lemma framed_now : framed now.
Proof.
  intros w1 w2 Ht. exists (Ret (clock (ticks w1))), [], 1%nat.
  unfold now, advance. rewrite !app_nil_r, !Nat.add_1_r, Ht. done.
Qed.

Lemma framed_bind {A B} (m : M A) (k : A → M B) :
  framed m → (∀ a, framed (k a)) → framed (bind m k).
Proof.
  intros Hm Hk w1 w2 Ht.
  destruct (Hm w1 w2 Ht) as (o & e1 & k1 & Hr1 & Hr2 & He1 & Ho).
  unfold bind. rewrite Hr1, Hr2. destruct o as [a|e|]; [|by eauto 10|done].
  destruct (Hk a (advance w1 e1 k1) (advance w2 e1 k1)) as (o' & e2 & k2 & Hs1 & Hs2 & He2 & Ho').
  { cbn. by rewrite Ht. }
  exists o', (e1 ++ e2), (k1 + k2)%nat. rewrite Hs1, Hs2, !advance_advance.
  repeat split; [|done]. rewrite forallb_app. by rewrite He1, He2.
Qed.

Lemma extract_bodies_outcome (payload : Payload) :
  (∃ r, _extract_bodies payload = Ret r) ∨ _extract_bodies payload = Raise BinasciiError.
Proof.
  unfold _extract_bodies.
  destruct (is_mime payload "text/plain").
  { destruct (decode_outcome payload) as [[s ->] | ->]; cbn; eauto. }
  destruct (is_mime payload "text/html").
  { destruct (decode_outcome payload) as [[s ->] | ->]; cbn; eauto. }
  rewrite scan_parts_slots. cbn [truthy].
  destruct (first_filled_outcome "text/plain" (parts payload)) as [[t ->] | ->]; cbn; [|eauto].
  destruct (first_filled_outcome "text/html" (parts payload)) as [[h ->] | ->]; cbn; [|eauto].
  destruct (negb (truthy t) && truthy h); eauto.
Qed.

Lemma framed_fetch_thread_size (thread_id : option string) :
  framed (_fetch_thread_size thread_id).
Proof.
  unfold _fetch_thread_size. destruct thread_id as [tid|]; [|apply framed_ret].
  destruct (truthy tid); cbn; [|apply framed_ret].
  apply framed_bind; [by apply framed_emit|]. intros _.
  destruct (threads_get tid); [apply framed_ret..|apply framed_raise].
Qed.

Lemma framed_hydrate_message (message_id : option string) :
  framed (_hydrate_message message_id).
Proof.
  unfold _hydrate_message. destruct message_id as [mid|]; [|apply framed_ret].
  destruct (truthy mid); cbn; [|apply framed_ret].
  apply framed_bind; [by apply framed_emit|]. intros _.
  destruct (messages_get mid) as [response| |e]; [|apply framed_ret|apply framed_raise].
  apply framed_bind.
  { destruct (truthy_opt _); [|apply framed_now].
    destruct (date_parse _); [apply framed_ret | apply framed_raise]. }
  intros d. apply framed_bind.
  { apply framed_lift.
    by destruct (extract_bodies_outcome (res_payload response)) as [[r ->] | ->]. }
  intros [t h]. apply framed_bind; [apply framed_fetch_thread_size|].
  intros n. apply framed_ret.
Qed.

Lemma framed_hydrate_loop (messages : list (option string)) (hydrated : list GmailMessage) :
  framed (hydrate_loop messages hydrated).
Proof.
  revert hydrated. induction messages as [|mid rest IH]; intros hydrated; cbn.
  - apply framed_ret.
  - apply framed_bind; [apply framed_hydrate_message|].
    intros [d|]; apply IH.
Qed.

(** *** Hydration of one message *)

Lemma header_dict_lookup (hs : list Header) (k : string) :
  header_dict hs !! k = find_header hs k.
Proof.
  unfold header_dict, find_header.
  induction hs as [|h hs IH] using rev_ind; [done|].
  rewrite foldl_snoc, filter_app.
  destruct (decide (lower (name h) = k)) as [Hk|Hk].
  - rewrite (filter_cons_True _ h []) by done. cbn.
    rewrite last_snoc. cbn. rewrite <- Hk. apply lookup_insert_eq.
  - rewrite (filter_cons_False _ h []) by done. cbn.
    rewrite app_nil_r, lookup_insert_ne by done. apply IH.
Qed.

Lemma fetch_thread_size_cases (thread_id : option string) (w : World) :
  ∃ o w', _fetch_thread_size thread_id w = (o, w')
    ∧ ticks w' = ticks w
    ∧ match thread_id with
      | None => o = Ret 1
      | Some tid =>
          if truthy tid then
            match threads_get tid with
            | Answer thread => o = Ret (Z.of_nat (length (thread_messages thread)))
            | HttpError => o = Ret 1
            | Fails e => o = Raise e
            end
          else o = Ret 1
      end.
Proof.
  unfold _fetch_thread_size. destruct thread_id as [tid|]; [|by eexists _, _].
  destruct (truthy tid); cbn; [|by eexists _, _].
  unfold bind, emit. destruct (threads_get tid); by eexists _, _.
Qed.

(** A lookup that settles returns a size. *)
Lemma fetch_thread_size_settles (thread_id : option string) (w : World) :
  thread_settles thread_id →
  ∃ n w', _fetch_thread_size thread_id w = (Ret n, w').
Proof.
  intros Hsettles.
  destruct (fetch_thread_size_cases thread_id w) as (o & w' & Hrun & _ & Hcases).
  rewrite Hrun. destruct thread_id as [tid|]; [|subst; eauto].
  destruct (truthy tid) eqn:Htid; [|subst; eauto].
  destruct (threads_get tid) as [thread| |e] eqn:Hget; [subst; eauto..|].
  by destruct (Hsettles tid e).
Qed.


(** What a hydrated message holds. *)
Lemma hydrate_message_inv (message_id : option string) (w w' : World) (m : GmailMessage) :
  _hydrate_message message_id w = (Ret (Some m), w') →
  ∃ mid response,
    message_id = Some mid ∧ truthy mid = true ∧ messages_get mid = Answer response
    ∧ let hs := headers (res_payload response) in
      subject m = default "(Sans objet)" (find_header hs "subject")
      ∧ to m = default "" (find_header hs "to")
      ∧ cc m = default "" (find_header hs "cc")
      ∧ cc_only m = truthy (cc m) && negb (truthy (to m))
      ∧ (if truthy_opt (find_header hs "date")
         then date_parse (default "" (find_header hs "date")) = Some (date m)
         else date m = clock (ticks w))
      ∧ _extract_bodies (res_payload response) = Ret (body_text m, body_html m)
      ∧ ∃ w1, (_fetch_thread_size (res_threadId response) w1).1 = Ret (thread_size m).
Proof.
  unfold _hydrate_message. destruct message_id as [mid|]; [|done].
  destruct (truthy mid) eqn:Hmid; cbn [negb]; [|done].
  unfold bind at 1. cbn [emit].
  destruct (messages_get mid) as [response| |e] eqn:Hget; [|done..].
  rewrite !header_dict_lookup. intros Hrun.
  exists mid, response. split; [done|]. split; [done|]. split; [done|]. cbn zeta.
  unfold bind, lift, ret, raise, now in Hrun.
  destruct (truthy_opt (find_header _ "date")) eqn:Hdate.
  - destruct (date_parse _) as [d|] eqn:Hparse; [|done].
    destruct (_extract_bodies _) as [[t h]| |] eqn:Hbodies; [|done..].
    destruct (_fetch_thread_size _ _) as [[n| |] w2] eqn:Hthread; [|done..].
    injection Hrun as <- <-. cbn. repeat split; try done.
    eexists. by rewrite Hthread.
  - cbn in Hrun.
    destruct (_extract_bodies _) as [[t h]| |] eqn:Hbodies; [|done..].
    destruct (_fetch_thread_size _ _) as [[n| |] w2] eqn:Hthread; [|done..].
    injection Hrun as <- <-. cbn. repeat split; try done.
    eexists. by rewrite Hthread.
Qed.

(** When the detail answers, the bodies decode, the Date header is
    absent, empty or accepted by the parser, and the thread lookup settles,
    the message is hydrated. *)
Lemma hydrate_message_succeeds (mid : string) (response : MessageResource)
    (w : World) (t h : string) :
  truthy mid = true →
  messages_get mid = Answer response →
  _extract_bodies (res_payload response) = Ret (t, h) →
  thread_settles (res_threadId response) →
  let date_str := find_header (headers (res_payload response)) "date" in
  truthy_opt date_str = false ∨ is_Some (date_parse (default "" date_str)) →
  ∃ m w', _hydrate_message (Some mid) w = (Ret (Some m), w').
Proof.
  intros Hmid Hget Hbodies Hsettles date_str Hdate.
  unfold _hydrate_message. rewrite Hmid. cbn [negb].
  unfold bind at 1. cbn [emit]. rewrite Hget, !header_dict_lookup. fold date_str.
  unfold bind, lift, ret, raise, now. rewrite Hbodies.
  destruct (truthy_opt date_str) eqn:Ht.
  - destruct Hdate as [|[d ->]]; [done|].
    match goal with |- context [_fetch_thread_size ?a ?b] =>
      destruct (fetch_thread_size_settles a b Hsettles) as (n & w2 & ->) end.
    by eexists _, _.
  - cbn.
    match goal with |- context [_fetch_thread_size ?a ?b] =>
      destruct (fetch_thread_size_settles a b Hsettles) as (n & w2 & ->) end.
    by eexists _, _.
Qed.

(** *** The hydration loop *)





Lemma hydrate_loop_all (messages : list (option string)) :
  (∀ x, x ∈ messages → hydrates x) →
  ∀ acc w, ∃ hs w',
    hydrate_loop messages acc w = (Ret hs, w')
    ∧ length hs = (length acc + length messages)%nat.
Proof.
  induction messages as [|a rest IH]; intros Hall acc w; cbn [hydrate_loop].
  - exists acc, w. split; [done | cbn; lia].
  - unfold bind. destruct (Hall a (list_elem_of_here _ _) w) as (m & w1 & ->).
    destruct (IH (λ x Hx, Hall x (list_elem_of_further _ _ _ Hx)) (acc ++ [m]) w1)
      as (hs & w' & -> & Hlen).
    exists hs, w'. split; [done|]. rewrite Hlen, length_app. cbn. lia.
Qed.

(** *** The whole fetch *)

(** With a paged listing, the fetch makes its listing calls, then runs
    the hydration loop on all the identifiers, then sorts. *)
Lemma fetch_paged (fuel : nat) (days after : Z) (pages : list (list (option string))) :
  after_timestamp (clock 0) days = Ret after →
  paged ("after:" +:+ pretty after) None pages →
  (length pages ≤ fuel)%nat →
  ∃ listing,
    length listing = length pages
    ∧ forallb is_list_call listing = true
    ∧ fetch_recent_messages fuel days world0 =
        (outcome_map sort_desc
           (hydrate_loop (concat pages) [] {| calls := listing; ticks := 1 |}).1,
         (hydrate_loop (concat pages) [] {| calls := listing; ticks := 1 |}).2).
Proof.
  intros Hafter Hpaged Hfuel.
  destruct (list_loop_paged _ _ _ Hpaged fuel [] {| calls := []; ticks := 1 |} Hfuel)
    as (listing & Hlen & Hall & Hrun).
  exists listing. split; [done|]. split; [done|].
  unfold fetch_recent_messages, bind, now, lift. cbn [world0 ticks calls].
  rewrite Hafter, Hrun. cbn [app calls ticks concat].
  destruct (hydrate_loop _ _ _) as [[hs| |] w]; reflexivity.
Qed.

Lemma filter_list_calls (listing extra : list Call) :
  forallb is_list_call listing = true →
  forallb (λ c, negb (is_list_call c)) extra = true →
  List.filter is_list_call (listing ++ extra) = listing.
Proof.
  intros Hl He. rewrite List.filter_app.
  assert (List.filter is_list_call extra = []) as ->.
  { induction extra as [|c extra IH]; [done|]. cbn in *.
    apply andb_true_iff in He as [Hc He]. destruct (is_list_call c); [done | by apply IH]. }
  rewrite app_nil_r. induction listing as [|c listing IH]; [done|]. cbn in *.
  apply andb_true_iff in Hl as [-> Hl]. by rewrite IH.
Qed.

(** C2. When the service lists its identifiers in pages, the fetch
    follows the continuation tokens to the last page: it terminates, makes
    one listing call per page, all of them before the first detail
    request, and hydrates the identifiers of all pages in order. What it
    returns is the list of hydrated messages sorted by date, latest first;
    when every identifier hydrates, that is one message per identifier. *)
Theorem fetch_recent_messages_paged (fuel : nat) (days after : Z)
    (pages : list (list (option string))) :
  after_timestamp (clock 0) days = Ret after →
  paged ("after:" +:+ pretty after) None pages →
  (length pages ≤ fuel)%nat →
  ∃ o w listing extra,
    fetch_recent_messages fuel days world0 = (o, w)
    ∧ o ≠ OutOfFuel
    ∧ calls w = listing ++ extra
    ∧ length listing = length pages
    ∧ forallb is_list_call listing = true
    ∧ forallb (λ c, negb (is_list_call c)) extra = true
    ∧ length (list_calls w) = length pages
    ∧ o = outcome_map sort_desc
            (hydrate_loop (concat pages) [] {| calls := listing; ticks := 1 |}).1
    ∧ (∀ hs, o = Ret hs →
         descending hs
         ∧ ∃ hydrated,
             (hydrate_loop (concat pages) [] {| calls := listing; ticks := 1 |}).1
               = Ret hydrated
             ∧ hs ≡ₚ hydrated)
    ∧ ((∀ x, x ∈ concat pages → hydrates x) →
         ∃ hs, o = Ret hs ∧ length hs = length (concat pages)).
Proof.
  intros Hafter Hpaged Hfuel.
  destruct (fetch_paged fuel days after pages Hafter Hpaged Hfuel)
    as (listing & Hlen & Hall & Hrun).
  set (w1 := {| calls := listing; ticks := 1 |}) in *.
  destruct (framed_hydrate_loop (concat pages) [] w1 w1 eq_refl)
    as (o & extra & k & Hloop & _ & Hextra & Ho).
  unfold w1 in *. clear w1.
  rewrite Hloop in Hrun. cbn [fst snd] in Hrun.
  exists (outcome_map sort_desc o),
    (advance {| calls := listing; ticks := 1 |} extra k), listing, extra.
  split; [done|]. split; [by destruct o|]. split; [done|]. split; [done|].
  split; [done|]. split; [done|]. split.
  { unfold list_calls. cbn. by rewrite filter_list_calls. }
  split; [by rewrite Hloop|]. split.
  - intros hs Hhs. destruct o as [hydrated| |]; cbn in Hhs; [|done..].
    injection Hhs as <-. split; [apply sort_desc_descending|].
    exists hydrated. rewrite Hloop. split; [done | apply sort_desc_perm].
  - intros Hhyd.
    destruct (hydrate_loop_all _ Hhyd [] {| calls := listing; ticks := 1 |})
      as (hs & w' & Hrun' & Hlen').
    rewrite Hloop in Hrun'. injection Hrun' as -> _.
    exists (sort_desc hs). split; [done|]. by rewrite sort_desc_perm, Hlen'.
Qed.


(** *** Thread size and headers of a hydrated message *)


(** C10, as the code has it. A hydrated message is Cc-only exactly when
    its Cc header is present and not empty and its To header is absent or
    empty; whom the To header names is not looked at. *)
Theorem cc_only_headers (message_id : option string) (w w' : World) (m : GmailMessage) :
  _hydrate_message message_id w = (Ret (Some m), w') →
  ∃ mid response,
    message_id = Some mid ∧ messages_get mid = Answer response
    ∧ let hs := headers (res_payload response) in
      to m = default "" (find_header hs "to")
      ∧ cc m = default "" (find_header hs "cc")
      ∧ (cc_only m = true ↔
           truthy_opt (find_header hs "cc") = true
           ∧ truthy_opt (find_header hs "to") = false).
Proof.
  intros Hrun.
  destruct (hydrate_message_inv _ _ _ _ Hrun)
    as (mid & response & -> & _ & Hget & _ & Hto & Hcc & Hcc_only & _).
  exists mid, response. split; [done|]. split; [done|]. cbn zeta.
  split; [done|]. split; [done|].
  rewrite Hcc_only, Hto, Hcc.
  destruct (find_header _ "cc") as [c|], (find_header _ "to") as [a|]; cbn;
    try destruct (truthy c); try destruct (truthy a); cbn; intuition congruence.
Qed.

End fetch_facts.

(** ** The properties on the fixtures *)

Import fixtures.

Section examples.
#[local] Existing Instance AsciiOps.
#[local] Existing Instance StubLibs.
#[local] Existing Instance StubClock.

(** The newsletter of the specification: unread, one hour old, with
    [unsubscribe] in its snippet. Rules 1, 2, 6 and 8 fire. *)
Example score_newsletter :
  score_message (t0 + 3600 * 1000000)
    {| id := "m0"; thread_id := "t0"; subject := "Weekly digest";
       sender := "newsletter@example.com"; date := t0;
       snippet := "Click to unsubscribe"; labels := ["INBOX"; "UNREAD"];
       unread := true; starred := false; important := false; thread_size := 1;
       body_text := ""; body_html := ""; to := "me@example.com"; cc := "";
       cc_only := false |}
  = (30, ["Non lu"; "Expéditeur humain"; "Récent (<48h)"; "Newsletter présumée"]).
Proof. vm_compute. reflexivity. Qed.

(** Every identifier of the three pages hydrates: its detail answers a
    message without Date header and without body. *)
Lemma ids_hydrate (start n : nat) (x : option string) :
  x ∈ ids start n → @hydrates AsciiOps StubLibs ThreePages StubClock x.
Proof.
  intros Hx w. apply list_elem_of_fmap in Hx as (k & -> & _).
  by apply (hydrate_message_succeeds _ (bare ("m" +:+ pretty k)) w "" "");
    [..|left].
Qed.

(** Three pages of 100, 100 and 7 identifiers: three listing calls, 207
    messages, latest first. *)
Lemma fetch_three_pages :
  ∃ hs w,
    @fetch_recent_messages AsciiOps StubLibs ThreePages StubClock 3 14 world0 = (Ret hs, w)
    ∧ length hs = 207%nat
    ∧ length (list_calls w) = 3%nat
    ∧ descending hs.
Proof.
  destruct (@fetch_recent_messages_paged AsciiOps StubLibs ThreePages StubClock
              3 14 1698790400 [ids 0 100; ids 100 100; ids 200 7])
    as (o & w & listing & extra & Hrun & _ & _ & _ & _ & _ & Hcalls & _ & Hsorted & Hall).
  - vm_compute. reflexivity.
  - apply (paged_more _ _ (ids 0 100) "1"); [vm_compute; reflexivity | reflexivity |].
    apply (paged_more _ _ (ids 100 100) "2"); [vm_compute; reflexivity | reflexivity |].
    apply (paged_last _ _ (ids 200 7) None); [vm_compute; reflexivity | reflexivity].
  - cbn. lia.
  - destruct Hall as (hs & -> & Hlen).
    { intros x Hx. cbn [concat] in Hx. rewrite app_nil_r in Hx.
      apply elem_of_app in Hx as [Hx|Hx]; [by eapply ids_hydrate|].
      apply elem_of_app in Hx as [Hx|Hx]; by eapply ids_hydrate. }
    exists hs, w. split; [exact Hrun|]. split; [exact Hlen|]. split; [exact Hcalls|].
    exact (proj1 (Hsorted hs eq_refl)).
Defined.



(** C4, as it is written, fails on the multipart message of the
    specification: the HTML child decodes to [<p>Hi</p>], and the body
    extractor returns its prettified form, which differs from the markup
    and does not contain it. *)
Lemma html_part_is_prettified :
  first_child "text/plain" (parts hello_hi) = Some (Part (Some "text/plain") [] (Some "SGVsbG8=") [])
  ∧ first_child "text/html" (parts hello_hi) = Some (Part (Some "text/html") [] (Some "PHA-SGk8L3A-") [])
  ∧ b64decode_utf8 "SGVsbG8=" = Some "Hello"
  ∧ b64decode_utf8 "PHA-SGk8L3A-" = Some "<p>Hi</p>"
  ∧ _extract_bodies hello_hi = Ret ("Hello", "<p>" +:+ nl +:+ " Hi" +:+ nl +:+ "</p>" +:+ nl)
  ∧ "<p>" +:+ nl +:+ " Hi" +:+ nl +:+ "</p>" +:+ nl ≠ "<p>Hi</p>"
  ∧ contains ("<p>" +:+ nl +:+ " Hi" +:+ nl +:+ "</p>" +:+ nl) "<p>Hi</p>" = false.
Proof. repeat split; try (vm_compute; reflexivity). vm_compute. discriminate. Qed.

Lemma extract_hello_hi :
  _extract_bodies hello_hi = Ret ("Hello", prettify "<p>Hi</p>").
Proof.
  apply (extract_bodies_plain_and_html hello_hi
           (Part (Some "text/plain") [] (Some "SGVsbG8=") [])
           (Part (Some "text/html") [] (Some "PHA-SGk8L3A-") [])
           "SGVsbG8=" "PHA-SGk8L3A-" "Hello" "<p>Hi</p>");
    vm_compute; reflexivity.
Defined.

(** C5. The defect: [_decode] returns the empty string for a part without
    data and drops the bytes that are not UTF-8, but calls base64 outside
    any [try]. On a part whose data base64 refuses, [binascii.Error] leaves
    the extractor, the hydration of the message and the whole fetch. *)
Lemma bad_base64_propagates :
  b64decode_utf8 "abc" = None
  ∧ _extract_bodies (Part (Some "text/plain") [] (Some "abc") []) = Raise BinasciiError
  ∧ (@_hydrate_message AsciiOps StubLibs
       (OneMessage (resource [] (Some "text/plain") (Some "abc") []) HttpError)
       StubClock (Some "m0") world0).1 = Raise BinasciiError
  ∧ (@fetch_recent_messages AsciiOps StubLibs
       (OneMessage (resource [] (Some "text/plain") (Some "abc") []) HttpError)
       StubClock 5 14 world0).1 = Raise BinasciiError.
Proof. repeat split; vm_compute; reflexivity. Qed.

(** C9, as it is written, fails when the first [text/plain] child has
    no content: the slot it leaves empty is taken by the next one. *)
Lemma empty_first_child_overwritten :
  let first := Part (Some "text/plain") [] None [] in
  let second := Part (Some "text/plain") [] (Some "SGVsbG8=") [] in
  first_child "text/plain" [first; second] = Some first
  ∧ _decode first = Ret ""
  ∧ _decode second = Ret "Hello"
  ∧ scan_parts [first; second] "" "" = Ret ("Hello", "")
  ∧ _extract_bodies (Part (Some "multipart/mixed") [] None [first; second]) = Ret ("Hello", "").
Proof. repeat split; vm_compute; reflexivity. Qed.

Lemma scan_hello_hi :
  scan_parts (parts hello_hi) "" "" = Ret ("Hello", prettify "<p>Hi</p>")
  ∧ (∀ t h, scan_parts (parts hello_hi) "kept" "" = Ret (t, h) → t = "kept")
  ∧ first_filled "text/plain" (parts hello_hi) = Ret "Hello".
Proof.
  destruct (scan_parts_first_filled (parts hello_hi)) as (Hscan & Hkeep & Hfirst).
  split; [rewrite Hscan; vm_compute; reflexivity|]. split.
  - intros t h Hrun. by apply (Hkeep "kept" "" t h Hrun).
  - apply (Hfirst "text/plain" (Part (Some "text/plain") [] (Some "SGVsbG8=") []));
      vm_compute; reflexivity.
Defined.



(** C8. The defect: the date of a message defaults to the reading of the
    clock when the Date header is absent or empty, but a header that is
    present goes to the parser outside any [try]. On a Date header the
    parser refuses, its error leaves the hydration, and the fetch with
    it. *)
Lemma unparsable_date_raises :
  let service :=
    OneMessage (resource [{| name := "Date"; value := "not a date" |}] None None [])
      HttpError in
  date_parse "not a date" = None
  ∧ (@_hydrate_message AsciiOps StubLibs service StubClock (Some "m0") world0).1
    = Raise ParserError
  ∧ (@fetch_recent_messages AsciiOps StubLibs service StubClock 5 14 world0).1
    = Raise ParserError.
Proof. repeat split; vm_compute; reflexivity. Qed.

(** C10, as it is written, fails on a message sent to somebody else with
    the user in copy: it has a Cc header and no To header naming the user,
    and it is not Cc-only. *)
Lemma cc_only_ignores_addressee :
  let service :=
    OneMessage (resource [{| name := "To"; value := "other@example.com" |};
                          {| name := "Cc"; value := "me@example.com" |}] None None [])
      HttpError in
  names_user "me@example.com" "other@example.com" = false
  ∧ names_user "me@example.com" "me@example.com" = true
  ∧ (@_hydrate_message AsciiOps StubLibs service StubClock (Some "m0") world0).1
    = Ret (Some
        {| id := "m0"; thread_id := "t0"; subject := "(Sans objet)"; sender := "";
           date := t0; snippet := "hello"; labels := ["INBOX"; "UNREAD"];
           unread := true; starred := false; important := false; thread_size := 1;
           body_text := ""; body_html := "";
           to := "other@example.com"; cc := "me@example.com"; cc_only := false |}).
Proof. repeat split; vm_compute; reflexivity. Qed.

Lemma cc_only_on_fixtures :
  let copied :=
    resource [{| name := "CC"; value := "me@example.com" |}] None None [] in
  ∃ m w, @_hydrate_message AsciiOps StubLibs (OneMessage copied HttpError)
           StubClock (Some "m0") world0 = (Ret (Some m), w)
         ∧ cc_only m = true.
Proof.
  intros copied.
  destruct (hydrate_message_succeeds (H1 := OneMessage copied HttpError)
              "m0" copied world0 "" "") as (m & w & Hrun);
    [reflexivity | reflexivity | reflexivity | by intros tid e _ _ | by left |].
  exists m, w. split; [exact Hrun|].
  destruct (@cc_only_headers AsciiOps StubLibs (OneMessage copied HttpError) StubClock
              (Some "m0") world0 w m Hrun)
    as (mid & response & [= <-] & [= <-] & _ & _ & Hiff).
  apply Hiff. split; vm_compute; reflexivity.
Defined.

(** C7 on the fixtures: without a key, and with a service that fails,
    the reply is the template. *)
Lemma reply_on_fixtures :
  let m :=
    {| id := "m0"; thread_id := "t0"; subject := "Lunch?"; sender := "Bob <bob@example.com>";
       date := t0; snippet := "Are you free at noon?"; labels := ["INBOX"];
       unread := true; starred := false; important := false; thread_size := 1;
       body_text := ""; body_html := ""; to := "me@example.com"; cc := "";
       cc_only := false |} in
  @generate_reply AsciiOps NoOpenAI m = _rule_based_reply (reply_context m)
  ∧ @generate_reply AsciiOps FailingOpenAI m = _rule_based_reply (reply_context m)
  ∧ @generate_reply AsciiOps FailingOpenAI m ≠ "".
Proof.
  intros m.
  destruct (@generate_reply_never_fails AsciiOps NoOpenAI m) as (_ & Hkey & _).
  destruct (@generate_reply_never_fails AsciiOps FailingOpenAI m)
    as (Hne & _ & _ & Hraised & _).
  split; [by apply Hkey|]. split; [|exact Hne].
  by apply (Hraised "APIConnectionError").
Defined.

End examples.

(** * Further properties of the code *)

(** ** Scoring: the range that is reached *)

Section scoring_range.
Context `{StrOps}.

(** The positive weights add up to 85: no message scores higher, and the
    upper bound of the final clamp is never the one that applies. *)
Lemma score_message_at_most_85 (t : Z) (m : GmailMessage) :
  0 ≤ (score_message t m).1 ≤ 85.
Proof.
  unfold score_message.
  destruct (unread m), (negb _ && negb _), (_ || any_in _ _),
    (startswith _ _ && _), (starred m || important m), (_ <? _),
    (cc_only m), (any_in NEWSLETTER_PATTERNS _); cbn; lia.
Qed.

(** A message that triggers nothing is scored 0 without reasons, and a
    message without reasons is scored 0. *)
Lemma score_message_no_reason (t : Z) (m : GmailMessage) :
  (score_message t m).2 = [] → (score_message t m).1 = 0.
Proof.
  unfold score_message.
  destruct (unread m), (negb _ && negb _), (_ || any_in _ _),
    (startswith _ _ && _), (starred m || important m), (_ <? _),
    (cc_only m), (any_in NEWSLETTER_PATTERNS _); cbn; done.
Qed.

End scoring_range.

(** X1. The bound is reached, and so is the lower clamp: an unread, starred,
    recent reply with a question in a long thread scores 85; a read, old
    newsletter received in copy would total -30 and scores 0. *)
Theorem score_message_range :
  (∀ (ops : StrOps) t m, 0 ≤ (@score_message ops t m).1 ≤ 85)
  ∧ (∃ t m, (@score_message AsciiOps t m).1 = 85)
  ∧ (∃ t m, @score_message AsciiOps t m
            = (0, ["Uniquement en copie"; "Newsletter présumée"])).
Proof.
  split; [intros; apply score_message_at_most_85|]. split.
  - exists t0,
      {| id := "m0"; thread_id := "t0"; subject := "Re: lunch?"; sender := "Bob <bob@example.com>";
         date := t0; snippet := ""; labels := ["UNREAD"; "STARRED"];
         unread := true; starred := true; important := false; thread_size := 3;
         body_text := ""; body_html := ""; to := "me@example.com"; cc := "";
         cc_only := false |}.
    vm_compute. reflexivity.
  - exists (t0 + 72 * 3600 * 1000000),
      {| id := "m0"; thread_id := "t0"; subject := "Weekly bulletin";
         sender := "news <no-reply@example.com>";
         date := t0; snippet := ""; labels := [];
         unread := false; starred := false; important := false; thread_size := 1;
         body_text := ""; body_html := ""; to := ""; cc := "me@example.com";
         cc_only := true |}.
    vm_compute. reflexivity.
Qed.

(** ** The final sort is stable *)

Section sort_facts.

Lemma insert_desc_same_date (x : GmailMessage) (l : list GmailMessage) (d : Z) :
  filter (λ m, date m = d) (insert_desc x l) = filter (λ m, date m = d) (x :: l).
Proof.
  induction l as [|y l IH]; cbn [insert_desc]; [done|].
  destruct (date y <=? date x) eqn:E; [done|]. apply Z.leb_gt in E.
  rewrite (filter_cons _ y), IH, !(filter_cons _ x), (filter_cons _ y).
  destruct (decide (date y = d)), (decide (date x = d)); try done. lia.
Qed.

(** X2. Sorting by date moves no message past another of the same date: for
    every date, the messages of that date come out in the order they went
    in. A list already in descending order is returned as it is, so sorting
    twice is sorting once. *)
Theorem sort_desc_stable (l : list GmailMessage) :
  (∀ d, filter (λ m, date m = d) (sort_desc l) = filter (λ m, date m = d) l)
  ∧ (descending l → sort_desc l = l)
  ∧ sort_desc (sort_desc l) = sort_desc l.
Proof.
  assert (Hfix : ∀ k, descending k → sort_desc k = k).
  { unfold descending. induction 1 as [|x k Hk IH Hx]; [done|].
    cbn. fold (sort_desc k). rewrite IH. destruct k as [|y k]; [done|].
    cbn. apply Forall_cons in Hx as [Hy _]. apply Z.leb_le in Hy. by rewrite Hy. }
  split; [|split; [apply Hfix|apply Hfix, sort_desc_descending]].
  intros d. induction l as [|x l IH]; [done|].
  cbn. fold (sort_desc l). rewrite insert_desc_same_date, !(filter_cons _ x), IH. done.
Qed.

End sort_facts.

(** ** The listing loop has no bound of its own *)

Section listing_facts.
Context `{StrOps} `{Libs} `{Service} `{Clock}.

Lemma list_loop_endless (q : string) :
  endless q →
  ∀ fuel page_token acc w,
    ∃ listing,
      list_loop fuel q page_token acc w = (OutOfFuel, advance w listing 0)
      ∧ length listing = fuel
      ∧ forallb is_list_call listing = true.
Proof.
  intros Hq. induction fuel as [|fuel IH]; intros tok acc w.
  - exists []. by rewrite advance_0.
  - destruct (Hq tok) as (ids & next & Hlist & Hnext).
    cbn [list_loop]. unfold bind, emit. rewrite Hlist. cbn. rewrite Hnext. cbn.
    destruct (IH (Some next) (acc ++ ids)
                {| calls := calls w ++ [ListCall q tok]; ticks := ticks w |})
      as (listing & -> & Hlen & Hall).
    exists (ListCall q tok :: listing). split; [|split; [cbn; lia | done]].
    unfold advance. cbn. by rewrite <- (assoc_L (++)).
Qed.

(** X3. Against a service that answers every listing call with a further
    token, the fetch never leaves its listing loop: whatever the number of
    iterations allowed, they are all spent on listing calls, and no detail is
    requested. *)
Theorem fetch_never_returns_on_endless_listing (days after : Z) :
  after_timestamp (clock 0) days = Ret after →
  endless ("after:" +:+ pretty after) →
  ∀ fuel, ∃ w,
    fetch_recent_messages fuel days world0 = (OutOfFuel, w)
    ∧ length (calls w) = fuel
    ∧ forallb is_list_call (calls w) = true.
Proof.
  intros Hafter Hq fuel.
  destruct (list_loop_endless _ Hq fuel None [] {| calls := []; ticks := 1 |})
    as (listing & Hrun & Hlen & Hall).
  eexists. unfold fetch_recent_messages, bind, now, lift. cbn [world0 ticks calls].
  rewrite Hafter, Hrun. split; [reflexivity|]. done.
Qed.

End listing_facts.

Lemma fetch_endless_witness :
  ∃ w, @fetch_recent_messages AsciiOps StubLibs Endless StubClock 50 14 world0 = (OutOfFuel, w)
       ∧ length (calls w) = 50%nat.
Proof.
  assert (Hafter : @after_timestamp (@clock StubClock 0) 14 = Ret 1698790400)
    by (vm_compute; reflexivity).
  assert (Hq : @endless Endless ("after:" +:+ pretty 1698790400)).
  { intros tok. exists [Some "m0"], "more". split; reflexivity. }
  destruct (@fetch_never_returns_on_endless_listing AsciiOps StubLibs Endless StubClock
              14 1698790400 Hafter Hq 50%nat) as (w & Hrun & Hlen & _).
  exists w. split; [exact Hrun | exact Hlen].
Defined.

(** ** One detail request per listed identifier *)

Section request_facts.
Context `{StrOps} `{Libs} `{Service} `{Clock}.

Lemma get_calls_app (a b : list Call) : get_calls (a ++ b) = get_calls a ++ get_calls b.
Proof. apply omap_app. Qed.

Lemma thread_calls_app (a b : list Call) :
  thread_calls (a ++ b) = thread_calls a ++ thread_calls b.
Proof. apply omap_app. Qed.

Lemma identified_app (a b : list (option string)) :
  identified (a ++ b) = identified a ++ identified b.
Proof. apply omap_app. Qed.

Lemma appends_silent {A} (m : M A) (P : list Call → Prop) :
  (∀ w, calls (m w).2 = calls w) → P [] → appends m P.
Proof. intros Hm HP w. exists []. by rewrite app_nil_r. Qed.

Lemma appends_emit (c : Call) (P : list Call → Prop) : P [c] → appends (emit c) P.
Proof. intros HP w. by exists [c]. Qed.

Lemma appends_bind {A B} (m : M A) (k : A → M B) (P Q R : list Call → Prop) :
  appends m P → (∀ a, appends (k a) Q) →
  (∀ e1, P e1 → R e1) → (∀ e1 e2, P e1 → Q e2 → R (e1 ++ e2)) →
  appends (bind m k) R.
Proof.
  intros Hm Hk Hstop Hgo w. destruct (Hm w) as (e1 & Hc1 & HP). unfold bind.
  destruct (m w) as [[a|e|] w1]; cbn [snd] in *; [|exists e1; auto..].
  destruct (Hk a w1) as (e2 & Hc2 & HQ). exists (e1 ++ e2).
  rewrite Hc2, Hc1, (assoc_L (++)). auto.
Qed.

Lemma fetch_thread_size_appends (thread_id : option string) :
  appends (_fetch_thread_size thread_id) thread_at_most.
Proof.
  unfold _fetch_thread_size. destruct thread_id as [tid|];
    [|apply appends_silent; [done | by left]].
  destruct (truthy tid); cbn [negb]; [|apply appends_silent; [done | by left]].
  apply (appends_bind _ _ (λ e, e = [ThreadCall tid]) (λ e, e = []));
    [by apply appends_emit | | right; eauto | intros ? ? -> ->; right; eauto].
  intros _. destruct (threads_get tid); by apply appends_silent.
Qed.

(** Hydrating one entry asks for its detail once when it carries an
    identifier and never otherwise, looks up a thread only after that, and
    makes no other call. *)
Lemma hydrate_message_requests (message_id : option string) :
  appends (_hydrate_message message_id)
    (λ extra, get_calls extra = identified [message_id]
              ∧ (length (thread_calls extra) ≤ length (get_calls extra))%nat
              ∧ length extra = (length (get_calls extra) + length (thread_calls extra))%nat).
Proof.
  unfold _hydrate_message. destruct message_id as [mid|]; [|by apply appends_silent].
  destruct (truthy mid) eqn:Hmid; cbn [negb];
    [|apply appends_silent; [done | cbn; by rewrite Hmid]].
  apply (appends_bind _ _ (λ e, e = [GetCall mid]) thread_at_most);
    [by apply appends_emit | | |].
  - intros _. destruct (messages_get mid) as [response| |e];
      [|apply appends_silent; [done | by left]..].
    apply (appends_bind _ _ (λ e, e = []) thread_at_most);
      [| |by left|by intros ? ? ->].
    { apply appends_silent; [|done]. intros w.
      destruct (truthy_opt _); [by destruct (date_parse _)|done]. }
    intros d. apply (appends_bind _ _ (λ e, e = []) thread_at_most);
      [by apply appends_silent| |by left|by intros ? ? ->].
    intros [t h]. apply (appends_bind _ _ thread_at_most (λ e, e = []));
      [apply fetch_thread_size_appends| |done|intros ? ? ? ->; by rewrite app_nil_r].
    intros n. by apply appends_silent.
  - intros e ->. cbn. rewrite Hmid. cbn. auto with lia.
  - intros e1 e2 -> [-> | [tid ->]]; cbn; rewrite Hmid; cbn; auto with lia.
Qed.

(** The hydration loop asks for the details of the identified entries, in
    their order and once each, up to the entry at which it raises; it looks
    up no more threads than it has asked for details, and makes no other
    call. *)
Lemma hydrate_loop_requests (messages : list (option string)) :
  ∀ hydrated w,
  ∃ extra,
    calls (hydrate_loop messages hydrated w).2 = calls w ++ extra
    ∧ get_calls extra `prefix_of` identified messages
    ∧ (∀ hs, (hydrate_loop messages hydrated w).1 = Ret hs →
         get_calls extra = identified messages)
    ∧ (length (thread_calls extra) ≤ length (get_calls extra))%nat
    ∧ length extra = (length (get_calls extra) + length (thread_calls extra))%nat.
Proof.
  induction messages as [|a rest IH]; intros hydrated w.
  - exists []. cbn. rewrite app_nil_r. done.
  - cbn [hydrate_loop]. unfold bind.
    destruct (hydrate_message_requests a w) as (e1 & Hcalls & Hget & Hthread & Hlen).
    assert (Hid : identified (a :: rest) = identified [a] ++ identified rest)
      by apply (identified_app [a] rest).
    destruct (_hydrate_message a w) as [[[d|]| |] w1] eqn:Hrun; cbn [fst snd] in *.
    + destruct (IH (hydrated ++ [d]) w1) as (e2 & Hc2 & Hp2 & Hr2 & Ht2 & Hl2).
      exists (e1 ++ e2).
      rewrite Hc2, Hcalls, (assoc_L (++)), get_calls_app, thread_calls_app, Hid, <- Hget.
      split; [done|]. split; [by apply prefix_app|]. split.
      * intros hs Hhs. by rewrite (Hr2 hs Hhs).
      * rewrite !length_app. lia.
    + destruct (IH hydrated w1) as (e2 & Hc2 & Hp2 & Hr2 & Ht2 & Hl2).
      exists (e1 ++ e2).
      rewrite Hc2, Hcalls, (assoc_L (++)), get_calls_app, thread_calls_app, Hid, <- Hget.
      split; [done|]. split; [by apply prefix_app|]. split.
      * intros hs Hhs. by rewrite (Hr2 hs Hhs).
      * rewrite !length_app. lia.
    + exists e1. rewrite Hid, <- Hget. split; [done|].
      split; [by apply prefix_app_r|]. split; [done|lia].
    + exists e1. rewrite Hid, <- Hget. split; [done|].
      split; [by apply prefix_app_r|]. split; [done|lia].
Qed.

(** X4. Over a paged listing, the fetch asks for the detail of each listed
    identifier once, in the order of the listing; it stops asking at the
    first hydration that raises, and has asked for all of them when it
    returns. It looks up at most one thread per detail, and so makes at most
    one call per page and two per listed entry. *)
Theorem fetch_requests_each_identifier_once (fuel : nat) (days after : Z)
    (pages : list (list (option string))) :
  after_timestamp (clock 0) days = Ret after →
  paged ("after:" +:+ pretty after) None pages →
  (length pages ≤ fuel)%nat →
  let run := fetch_recent_messages fuel days world0 in
  get_calls (calls run.2) `prefix_of` identified (concat pages)
  ∧ (∀ hs, run.1 = Ret hs → get_calls (calls run.2) = identified (concat pages))
  ∧ (length (thread_calls (calls run.2)) ≤ length (get_calls (calls run.2)))%nat
  ∧ (length (calls run.2) ≤ length pages + 2 * length (concat pages))%nat.
Proof.
  intros Hafter Hpaged Hfuel run.
  destruct (fetch_paged fuel days after pages Hafter Hpaged Hfuel)
    as (listing & Hlen & Hall & Hrun).
  destruct (hydrate_loop_requests (concat pages) [] {| calls := listing; ticks := 1 |})
    as (extra & Hcalls & Hprefix & Hret & Hthreads & Hextra).
  assert (Hnone : get_calls listing = [] ∧ thread_calls listing = []).
  { clear -Hall. induction listing as [|c listing IH]; [done|].
    cbn in Hall. apply andb_true_iff in Hall as [Hc Hall].
    destruct c; try done. by apply IH. }
  destruct Hnone as [Hg Ht].
  unfold run. rewrite Hrun. cbn [fst snd] in *. rewrite Hcalls. cbn [calls].
  rewrite get_calls_app, thread_calls_app, Hg, Ht. cbn [app].
  split; [done|]. split.
  { intros hs Hhs. destruct (hydrate_loop _ _ _).1 as [l| |] eqn:E; cbn in Hhs; [|done..].
    by apply (Hret l). }
  split; [done|].
  assert (length (identified (concat pages)) ≤ length (concat pages))%nat.
  { unfold identified. generalize (concat pages). intros l.
    induction l as [|[mid|] l IH]; cbn; [lia| |lia]. destruct (truthy mid); cbn; lia. }
  apply prefix_length in Hprefix. rewrite length_app. lia.
Qed.

End request_facts.

Lemma fetch_requests_on_three_pages :
  get_calls (calls (@fetch_recent_messages AsciiOps StubLibs ThreePages StubClock 3 14 world0).2)
    = identified (ids 0 100 ++ ids 100 100 ++ ids 200 7)
  ∧ (length (calls (@fetch_recent_messages AsciiOps StubLibs ThreePages StubClock 3 14 world0).2)
       ≤ 3 + 2 * 207)%nat.
Proof.
  assert (Hret : ∃ hs,
            (@fetch_recent_messages AsciiOps StubLibs ThreePages StubClock 3 14 world0).1 = Ret hs).
  { assert (match (@fetch_recent_messages AsciiOps StubLibs ThreePages StubClock 3 14 world0).1
            with Ret _ => true | _ => false end = true) as Hok by (vm_compute; reflexivity).
    destruct (fetch_recent_messages 3 14 world0).1 as [hs| |]; [by exists hs | done..]. }
  destruct Hret as [hs Hrun].
  destruct (@fetch_requests_each_identifier_once AsciiOps StubLibs ThreePages StubClock
              3 14 1698790400 [ids 0 100; ids 100 100; ids 200 7])
    as (_ & Hall & _ & Hbound).
  - vm_compute. reflexivity.
  - apply (paged_more _ _ (ids 0 100) "1"); [vm_compute; reflexivity | reflexivity |].
    apply (paged_more _ _ (ids 100 100) "2"); [vm_compute; reflexivity | reflexivity |].
    apply (paged_last _ _ (ids 200 7) None); [vm_compute; reflexivity | reflexivity].
  - cbn. lia.
  - cbn zeta in Hall, Hbound. split.
    + rewrite (Hall hs Hrun). cbn [concat]. by rewrite app_nil_r.
    + exact Hbound.
Defined.

(** ** Body extractor: what it reads, and the HTML-only message *)

Section extractor_more_facts.
Context `{Libs}.

Lemma decode_shallow (p : Payload) : _decode (shallow p) = _decode p.
Proof. by destruct p. Qed.

Lemma is_mime_shallow (p : Payload) (m : string) : is_mime (shallow p) m = is_mime p m.
Proof. by destruct p. Qed.

Lemma scan_parts_shallow (ps : list Payload) (text html : string) :
  scan_parts (shallow <$> ps) text html = scan_parts ps text html.
Proof.
  revert text html. induction ps as [|p ps IH]; intros text html; [done|].
  cbn [fmap list_fmap scan_parts]. rewrite !is_mime_shallow, decode_shallow.
  destruct (is_mime p "text/plain" && negb (truthy text)).
  { destruct (_decode p); cbn; [apply IH | done..]. }
  destruct (is_mime p "text/html" && negb (truthy html)).
  { destruct (_decode p); cbn; [apply IH | done..]. }
  apply IH.
Qed.

Lemma first_filled_none (mime : string) (ps : list Payload) :
  (∀ p, p ∈ ps → is_mime p mime = false) → first_filled mime ps = Ret "".
Proof.
  induction ps as [|p ps IH]; intros Hps; [done|]. cbn.
  rewrite (Hps p) by apply list_elem_of_here.
  apply IH. intros q Hq. apply Hps. by apply list_elem_of_further.
Qed.

(** X5. The extractor reads the type and the data of the root and of its
    immediate children, and nothing else: headers and deeper parts do not
    count. So a message whose text parts all sit one level further down (a
    multipart inside a multipart) comes out with both bodies empty. *)
Theorem extract_bodies_reads_one_level (payload : Payload) :
  _extract_bodies payload
    = _extract_bodies (Part (mimeType payload) [] (data payload) (shallow <$> parts payload))
  ∧ (is_mime payload "text/plain" = false → is_mime payload "text/html" = false →
     (∀ p, p ∈ parts payload → is_mime p "text/plain" = false ∧ is_mime p "text/html" = false) →
     _extract_bodies payload = Ret ("", "")).
Proof.
  split.
  - destruct payload as [m hs d ps]. unfold _extract_bodies. cbn [parts].
    rewrite scan_parts_shallow. unfold is_mime, _decode. reflexivity.
  - intros Hplain Hhtml Hps. unfold _extract_bodies. rewrite Hplain, Hhtml, scan_parts_slots.
    cbn [truthy]. rewrite !first_filled_none by (intros p Hp; by destruct (Hps p Hp)). done.
Qed.

(** X6. A multipart message without [text/plain] child, whose first
    [text/html] child has content: the HTML body is the prettified markup,
    and the text body is derived from it by [get_text]. The same holds for a
    message that is a single [text/html] part; a single [text/plain] part
    gives its decoded text and no HTML. *)
Theorem extract_bodies_html_only (payload h : Payload) (dh x : string) :
  data h = Some dh → truthy dh = true → b64decode_utf8 dh = Some x →
  truthy (prettify x) = true →
  (is_mime payload "text/plain" = false → is_mime payload "text/html" = false →
   (∀ p, p ∈ parts payload → is_mime p "text/plain" = false) →
   first_child "text/html" (parts payload) = Some h →
   _extract_bodies payload = Ret (get_text (prettify x), prettify x))
  ∧ (is_mime h "text/html" = true →
     _extract_bodies h = Ret (get_text (prettify x), prettify x))
  ∧ (is_mime h "text/plain" = true → _extract_bodies h = Ret (x, "")).
Proof.
  intros Hdh Hdht Hx Hxt. split; [|split].
  - intros Hplain Hhtml Hnone Hh.
    destruct (first_child_mime _ _ _ Hh) as [Hmh _].
    unfold _extract_bodies. rewrite Hplain, Hhtml, scan_parts_slots. cbn [truthy].
    rewrite (first_filled_none "text/plain") by done.
    rewrite (first_filled_first_child _ _ h _ Hh (decode_html h dh x Hmh Hdh Hdht Hx) Hxt).
    cbn. by rewrite Hxt.
  - intros Hmh. unfold _extract_bodies.
    rewrite (is_mime_exclusive h "text/html" "text/plain") by done.
    by rewrite Hmh, (decode_html h dh x).
  - intros Hmp. unfold _extract_bodies. by rewrite Hmp, (decode_plain h dh x).
Qed.

End extractor_more_facts.

Lemma extract_html_only_witness :
  @_extract_bodies StubLibs
    (Part (Some "multipart/related") [] None [Part (Some "text/html") [] (Some "PHA-SGk8L3A-") []])
  = Ret (@get_text StubLibs pretty_p_hi, pretty_p_hi).
Proof.
  apply (proj1 (@extract_bodies_html_only StubLibs
                  (Part (Some "multipart/related") [] None
                     [Part (Some "text/html") [] (Some "PHA-SGk8L3A-") []])
                  (Part (Some "text/html") [] (Some "PHA-SGk8L3A-") [])
                  "PHA-SGk8L3A-" "<p>Hi</p>" eq_refl eq_refl eq_refl eq_refl));
    try reflexivity.
  intros p Hp. apply list_elem_of_singleton in Hp as ->. reflexivity.
Defined.

(** ** Hydrated messages: flags and labels *)

Section hydrated_facts.
Context `{StrOps} `{Libs} `{Service} `{Clock}.

(** X7. In a hydrated message the flags say what the labels say: unread and
    starred are the presence of their label, important is the presence of
    [IMPORTANT] or of [CATEGORY_PERSONAL]; the labels are those of the
    detail; Cc-only is a non-empty Cc with an empty To; and a message
    without thread identifier counts as a thread of one. *)
Theorem hydrated_flags_follow_labels (message_id : option string) (w w' : World)
    (m : GmailMessage) :
  _hydrate_message message_id w = (Ret (Some m), w') →
  unread m = bool_decide ("UNREAD" ∈ labels m)
  ∧ starred m = bool_decide ("STARRED" ∈ labels m)
  ∧ important m
    = bool_decide ("IMPORTANT" ∈ labels m) || bool_decide ("CATEGORY_PERSONAL" ∈ labels m)
  ∧ cc_only m = truthy (cc m) && negb (truthy (to m))
  ∧ (thread_id m = "" → thread_size m = 1)
  ∧ (∃ mid response, message_id = Some mid ∧ messages_get mid = Answer response
       ∧ labels m = res_labelIds response
       ∧ id m = default "" (res_id response)
       ∧ snippet m = default "" (res_snippet response)).
Proof.
  unfold _hydrate_message. destruct message_id as [mid|]; [|done].
  destruct (truthy mid) eqn:Hmid; cbn [negb]; [|done].
  unfold bind at 1. cbn [emit].
  destruct (messages_get mid) as [response| |e] eqn:Hget; [|done..].
  unfold bind, lift, ret, raise, now. intros Hrun.
  assert (Hsize : ∀ w1 n w2, _fetch_thread_size (res_threadId response) w1 = (Ret n, w2) →
            default "" (res_threadId response) = "" → n = 1).
  { intros w1 n w2 Hn Hempty.
    destruct (fetch_thread_size_cases (res_threadId response) w1) as (o & w2' & Hn' & _ & Hc).
    rewrite Hn in Hn'. injection Hn' as <- <-.
    destruct (res_threadId response) as [tid|]; [|by injection Hc].
    cbn in Hempty. subst tid. cbn in Hc. by injection Hc. }
  destruct (truthy_opt _).
  - destruct (date_parse _) as [d|]; [|done].
    destruct (_extract_bodies _) as [[t h]| |]; [|done..].
    destruct (_fetch_thread_size _ _) as [[n| |] w2] eqn:Hthread; [|done..].
    injection Hrun as <- <-. cbn. repeat split; try done; eauto 10.
  - cbn in Hrun.
    destruct (_extract_bodies _) as [[t h]| |]; [|done..].
    destruct (_fetch_thread_size _ _) as [[n| |] w2] eqn:Hthread; [|done..].
    injection Hrun as <- <-. cbn. repeat split; try done; eauto 10.
Qed.

End hydrated_facts.

Section header_facts.
Context `{StrOps} `{Libs} `{Service} `{Clock}.

(** X23. Headers are looked up by their lowered name, the last header of
    a name winning. When the detail answers, the bodies decode and the
    thread lookup raises nothing but [HttpError], a message whose Date
    header is absent or empty is hydrated with the reading of the clock as
    its date, and one whose Date header the parser accepts is hydrated with
    the parsed date; in both cases the subject is the Subject header, or the
    placeholder when there is none. *)
Theorem hydrate_headers_defaults (mid : string) (response : MessageResource)
    (w : World) (t h : string) :
  truthy mid = true →
  messages_get mid = Answer response →
  _extract_bodies (res_payload response) = Ret (t, h) →
  thread_settles (res_threadId response) →
  let hs := headers (res_payload response) in
  (∀ k, header_dict hs !! k = find_header hs k)
  ∧ (truthy_opt (find_header hs "date") = false →
       ∃ m w', _hydrate_message (Some mid) w = (Ret (Some m), w')
               ∧ date m = clock (ticks w)
               ∧ subject m = default "(Sans objet)" (find_header hs "subject"))
  ∧ (∀ s d, find_header hs "date" = Some s → truthy s = true → date_parse s = Some d →
       ∃ m w', _hydrate_message (Some mid) w = (Ret (Some m), w')
               ∧ date m = d
               ∧ subject m = default "(Sans objet)" (find_header hs "subject")).
Proof.
  intros Hmid Hget Hbodies Hsettles hs. split; [apply header_dict_lookup|]. split.
  - intros Hdate.
    destruct (hydrate_message_succeeds mid response w t h Hmid Hget Hbodies Hsettles)
      as (m & w' & Hrun); [by left|].
    exists m, w'. split; [done|].
    destruct (hydrate_message_inv _ _ _ _ Hrun)
      as (mid' & response' & [= <-] & _ & Hget' & Hsubject & _ & _ & _ & Hd & _).
    rewrite Hget in Hget'. injection Hget' as <-. fold hs in Hd, Hsubject.
    rewrite Hdate in Hd. done.
  - intros s d Hs Hst Hparse.
    destruct (hydrate_message_succeeds mid response w t h Hmid Hget Hbodies Hsettles)
      as (m & w' & Hrun).
    { right. fold hs. rewrite Hs. cbn. by rewrite Hparse. }
    exists m, w'. split; [done|].
    destruct (hydrate_message_inv _ _ _ _ Hrun)
      as (mid' & response' & [= <-] & _ & Hget' & Hsubject & _ & _ & _ & Hd & _).
    rewrite Hget in Hget'. injection Hget' as <-. fold hs in Hd, Hsubject.
    rewrite Hs in Hd. cbn in Hd. rewrite Hst, Hparse in Hd. by injection Hd as <-.
Qed.

End header_facts.

Lemma headers_on_fixtures :
  let dated :=
    resource [{| name := "SUBJECT"; value := "Hi" |};
              {| name := "date"; value := "Thu, 01 Jan 1970 00:00:10 +0000" |}]
      None None [] in
  (∃ m w, @_hydrate_message AsciiOps StubLibs (OneMessage (resource [] None None []) HttpError)
            StubClock (Some "m0") world0 = (Ret (Some m), w)
          ∧ date m = t0 ∧ subject m = "(Sans objet)")
  ∧ (∃ m w, @_hydrate_message AsciiOps StubLibs (OneMessage dated HttpError)
              StubClock (Some "m0") world0 = (Ret (Some m), w)
            ∧ date m = 10000000 ∧ subject m = "Hi").
Proof.
  intros dated. split.
  - destruct (@hydrate_headers_defaults AsciiOps StubLibs
                (OneMessage (resource [] None None []) HttpError) StubClock
                "m0" (resource [] None None []) world0 "" "")
      as (_ & Habsent & _); [reflexivity..|by intros tid e _ _|].
    destruct Habsent as (m & w & Hrun & Hdate & Hsubject); [reflexivity|].
    by exists m, w.
  - destruct (@hydrate_headers_defaults AsciiOps StubLibs
                (OneMessage dated HttpError) StubClock "m0" dated world0 "" "")
      as (_ & _ & Hparsed); [reflexivity..|by intros tid e _ _|].
    destruct (Hparsed "Thu, 01 Jan 1970 00:00:10 +0000" 10000000)
      as (m & w & Hrun & Hdate & Hsubject); [vm_compute; reflexivity..|].
    exists m, w. split; [done|]. split; [done|]. rewrite Hsubject. vm_compute. reflexivity.
Defined.

Lemma hydrated_flags_witness :
  ∃ m w, @_hydrate_message AsciiOps StubLibs
           (OneMessage {| res_id := None; res_threadId := None;
                          res_labelIds := ["CATEGORY_PERSONAL"; "UNREAD"];
                          res_snippet := None; res_payload := no_payload |} HttpError)
           StubClock (Some "m0") world0 = (Ret (Some m), w)
         ∧ unread m = true ∧ starred m = false ∧ important m = true ∧ thread_size m = 1.
Proof.
  set (r := {| res_id := None; res_threadId := None;
               res_labelIds := ["CATEGORY_PERSONAL"; "UNREAD"];
               res_snippet := None; res_payload := no_payload |}).
  destruct (@hydrate_message_succeeds AsciiOps StubLibs (OneMessage r HttpError) StubClock
              "m0" r world0 "" "")
    as (m & w & Hrun);
    [reflexivity | reflexivity | reflexivity | by intros tid e [=] | by left |].
  exists m, w. split; [exact Hrun|].
  destruct (@hydrated_flags_follow_labels AsciiOps StubLibs (OneMessage r HttpError) StubClock
              (Some "m0") world0 w m Hrun)
    as (Hu & Hs & Hi & _ & Ht & mid & response & [= <-] & [= <-] & Hl & _).
  rewrite Hu, Hs, Hi, Hl. repeat split; try (vm_compute; reflexivity).
  apply Ht. revert Hrun. vm_compute. by intros [= <- _].
Defined.

(** ** The filters of the sidebar *)

Section filter_facts.
Context `{StrOps}.

Lemma filter_loop_filter (messages filtered : list (GmailMessage * Z * list string))
    (start_date end_date : Z) (unread_only : bool) (min_score : Z) (search_term : string) :
  filter_loop messages start_date end_date unread_only min_score (lower search_term) filtered
  = filtered ++ filter (passes start_date end_date unread_only min_score search_term) messages.
Proof.
  revert filtered. induction messages as [|[[message score] reasons] rest IH]; intros filtered.
  - cbn. by rewrite app_nil_r.
  - cbn [filter_loop]. rewrite filter_cons.
    destruct (decide (passes _ _ _ _ _ _)) as [Hp|Hp].
    + destruct Hp as ((H1 & H2) & Hu & Hs & Ht).
      apply Z.leb_le in H1, H2. rewrite H1, H2. cbn [andb negb].
      destruct unread_only; cbn [andb].
      * rewrite (Hu eq_refl). cbn [negb]. apply Z.ltb_ge in Hs. rewrite Hs.
        destruct (lower search_term) eqn:E; cbn [truthy andb].
        -- by rewrite IH, <- (assoc_L (++)).
        -- rewrite Ht by done. cbn [negb]. by rewrite IH, <- (assoc_L (++)).
      * apply Z.ltb_ge in Hs. rewrite Hs.
        destruct (lower search_term) eqn:E; cbn [truthy andb].
        -- by rewrite IH, <- (assoc_L (++)).
        -- rewrite Ht by done. cbn [negb]. by rewrite IH, <- (assoc_L (++)).
    + destruct (negb _) eqn:Hdate; [apply IH|].
      apply negb_false_iff, andb_true_iff in Hdate as [H1%Z.leb_le H2%Z.leb_le].
      destruct (unread_only && negb (unread message)) eqn:Hunread; [apply IH|].
      destruct (score <? min_score) eqn:Hscore; [apply IH|]. apply Z.ltb_ge in Hscore.
      destruct (truthy (lower search_term) && negb _) eqn:Hsearch; [apply IH|].
      exfalso. apply Hp. split; [done|]. split; [|split; [done|]].
      * intros ->. cbn in Hunread. by apply negb_false_iff in Hunread.
      * intros Hne. apply andb_false_iff in Hsearch as [Hs|Hs].
        -- by destruct (lower search_term).
        -- by apply negb_false_iff in Hs.
Qed.

(** X8. [filter_messages] returns exactly the messages that pass the four
    filters, in the order and with the multiplicity they came in; it adds
    nothing and changes no message, score or reason. *)
Theorem filter_messages_keeps_what_passes
    (messages : list (GmailMessage * Z * list string))
    (start_date end_date : Z) (unread_only : bool) (min_score : Z) (search_term : string) :
  filter_messages messages start_date end_date unread_only min_score search_term
  = filter (passes start_date end_date unread_only min_score search_term) messages
  ∧ filter_messages messages start_date end_date unread_only min_score search_term
      `sublist_of` messages
  ∧ (∀ item,
       item ∈ filter_messages messages start_date end_date unread_only min_score search_term
       ↔ item ∈ messages
         ∧ passes start_date end_date unread_only min_score search_term item).
Proof.
  unfold filter_messages. rewrite filter_loop_filter. cbn [app].
  split; [done|]. split; [apply sublist_filter|].
  intros item. rewrite list_elem_of_filter. tauto.
Qed.

(** X9. Filtering twice with the same settings is filtering once; the search
    does not depend on the case of the term; and stricter settings (a
    narrower window, a higher minimum, unread only) give a sub-list of what
    looser settings give. *)
Theorem filter_messages_composes
    (messages : list (GmailMessage * Z * list string))
    (start_date end_date : Z) (unread_only : bool) (min_score : Z) (search_term : string) :
  filter_messages
    (filter_messages messages start_date end_date unread_only min_score search_term)
    start_date end_date unread_only min_score search_term
  = filter_messages messages start_date end_date unread_only min_score search_term
  ∧ (∀ term', lower term' = lower search_term →
       filter_messages messages start_date end_date unread_only min_score term'
       = filter_messages messages start_date end_date unread_only min_score search_term)
  ∧ (∀ start_date' end_date' unread_only' min_score',
       start_date ≤ start_date' → end_date' ≤ end_date → min_score ≤ min_score' →
       (unread_only = true → unread_only' = true) →
       filter_messages messages start_date' end_date' unread_only' min_score' search_term
         `sublist_of`
       filter_messages messages start_date end_date unread_only min_score search_term).
Proof.
  unfold filter_messages. rewrite !filter_loop_filter. cbn [app]. split; [|split].
  - induction messages as [|x l IH]; [done|]. rewrite filter_cons.
    destruct (decide _) as [Hx|Hx]; [|done].
    rewrite filter_cons. destruct (decide _); [|done]. by rewrite IH.
  - intros term' Hterm. rewrite filter_loop_filter. cbn [app].
    apply list_filter_iff. intros [[m sc] r]. unfold passes. by rewrite Hterm.
  - intros s' e' u' ms' Hs He Hm Hu. rewrite filter_loop_filter. cbn [app].
    induction messages as [|[[m sc] r] l IH]; [done|]. rewrite !filter_cons.
    destruct (decide (passes s' e' u' ms' _ _)) as [Hp|Hp].
    + destruct (decide (passes start_date _ _ _ _ _)) as [Hq|Hq]; [by constructor|].
      exfalso. apply Hq. destruct Hp as ((H1 & H2) & Hu' & Hs' & Ht).
      split; [lia|]. split; [auto|]. split; [lia|done].
    + destruct (decide _); [by constructor | done].
Qed.

(** X10. The filter after the scoring: since no score exceeds 85, a minimum
    above 85 leaves nothing, whatever the other settings; and a minimum of 0
    or less never removes a message. *)
Theorem filter_messages_after_scoring
    (messages : list (GmailMessage * Z * list string))
    (start_date end_date : Z) (unread_only : bool) (min_score : Z) (search_term : string) :
  (∀ m sc r, (m, sc, r) ∈ messages → ∃ t, score_message t m = (sc, r)) →
  (85 < min_score →
   filter_messages messages start_date end_date unread_only min_score search_term = [])
  ∧ (min_score ≤ 0 →
     filter_messages messages start_date end_date unread_only min_score search_term
     = filter_messages messages start_date end_date unread_only 0 search_term).
Proof.
  intros Hscored. unfold filter_messages. rewrite !filter_loop_filter. cbn [app].
  assert (Hrange : ∀ m sc r, (m, sc, r) ∈ messages → 0 ≤ sc ≤ 85).
  { intros m sc r Hin. destruct (Hscored m sc r Hin) as [t Ht].
    pose proof (score_message_at_most_85 t m) as Hb. by rewrite Ht in Hb. }
  clear Hscored. split; intros Hmin.
  - induction messages as [|[[m sc] r] l IH]; [done|]. rewrite filter_cons.
    destruct (decide _) as [Hp|Hp].
    + destruct Hp as (_ & _ & Hs & _). specialize (Hrange m sc r (list_elem_of_here _ _)). lia.
    + apply IH. intros. eapply Hrange. by apply list_elem_of_further.
  - induction messages as [|[[m sc] r] l IH]; [done|]. rewrite !filter_cons.
    pose proof (Hrange m sc r (list_elem_of_here _ _)) as Hsc.
    rewrite IH by (intros; eapply Hrange; by apply list_elem_of_further).
    destruct (decide (passes _ _ _ min_score _ _)) as [Hp|Hp];
      destruct (decide (passes _ _ _ 0 _ _)) as [Hq|Hq]; try done; exfalso.
    + apply Hq. destruct Hp as (? & ? & ? & ?). repeat split; try done; lia.
    + apply Hp. destruct Hq as (? & ? & ? & ?). repeat split; try done; lia.
Qed.

End filter_facts.

Lemma filter_after_scoring_witness :
  @filter_messages AsciiOps [(top_message, (@score_message AsciiOps t0 top_message).1,
                              (@score_message AsciiOps t0 top_message).2)]
    0 (2 * t0) false 90 "" = [].
Proof.
  apply (@filter_messages_after_scoring AsciiOps); [|lia].
  intros m sc r Hin. apply list_elem_of_singleton in Hin. injection Hin as -> -> ->.
  exists t0. apply surjective_pairing.
Defined.

(** ** The account: authentication *)

Section account_facts.
Context `{AccountLibs}.

(** What an authentication that had to be made comes to. *)
Lemma authenticate_cases (acct : Account) :
  service (client acct) = None →
  (∃ msg, authenticate acct = (Raise (RuntimeError msg), acct))
  ∨ (∃ creds,
       authenticate acct
       = (Ret tt, {| client := with_service (client acct) creds;
                     files := files acct;
                     submitted := submitted acct |})
       ∧ valid creds = true
       ∧ ∃ content, files acct !! token_path (client acct) = Some content
                    ∧ from_authorized_user_file content (scopes (client acct)) = Some creds)
  ∨ (∃ creds,
       authenticate acct
       = (Ret tt, {| client := with_service (client acct) creds;
                     files := <[token_path (client acct) := to_json creds]> (files acct);
                     submitted := submitted acct |})).
Proof.
  intros Hnone. unfold authenticate. rewrite Hnone.
  assert (Hrenew : ∀ creds,
    (∃ msg, match obtain (client acct) (files acct) creds with
            | Ret c => (Ret tt, {| client := with_service (client acct) c;
                                   files := <[token_path (client acct) := to_json c]> (files acct);
                                   submitted := submitted acct |})
            | Raise e => (Raise e, acct)
            | OutOfFuel => (OutOfFuel, acct)
            end = (Raise (RuntimeError msg), acct))
    ∨ (∃ c, match obtain (client acct) (files acct) creds with
            | Ret c => (Ret tt, {| client := with_service (client acct) c;
                                   files := <[token_path (client acct) := to_json c]> (files acct);
                                   submitted := submitted acct |})
            | Raise e => (Raise e, acct)
            | OutOfFuel => (OutOfFuel, acct)
            end = (Ret tt, {| client := with_service (client acct) c;
                              files := <[token_path (client acct) := to_json c]> (files acct);
                              submitted := submitted acct |}))).
  { intros creds. unfold obtain.
    destruct creds as [c|]; [destruct (expired c && truthy_opt (refresh_token c))|];
      [destruct (refresh c)|..]; try destruct (files acct !! credentials_path _); eauto. }
  destruct (files acct !! token_path (client acct)) as [content|] eqn:Hfile.
  - destruct (from_authorized_user_file content _) as [c|] eqn:Hread.
    + destruct (valid c) eqn:Hvalid.
      * right; left. exists c. eauto 10.
      * destruct (Hrenew (Some c)) as [[msg ->] | [c' ->]]; eauto.
    + destruct (Hrenew None) as [[msg ->] | [c' ->]]; eauto.
  - destruct (Hrenew None) as [[msg ->] | [c' ->]]; eauto.
Qed.

Lemma authenticate_outcomes (acct : Account) :
  (∃ msg, authenticate acct = (Raise (RuntimeError msg), acct))
  ∨ (∃ acct', authenticate acct = (Ret tt, acct')
              ∧ submitted acct' = submitted acct
              ∧ is_Some (service (client acct'))).
Proof.
  destruct (service (client acct)) as [c|] eqn:Hc.
  - right. exists acct. unfold authenticate. rewrite Hc. eauto.
  - destruct (authenticate_cases acct Hc) as [[msg Hr] | [(c & Hr & _) | (c & Hr)]];
      [left; eauto | right; eexists; split; [exact Hr|]; cbn; eauto..].
Qed.

(** X11. Once a service has been built, [authenticate] does nothing: it reads
    no file, asks for no consent and writes nothing. An authentication that
    succeeds leaves a service behind, so that a second one is of this
    kind. *)
Theorem authenticate_once (acct : Account) :
  (is_Some (service (client acct)) → authenticate acct = (Ret tt, acct))
  ∧ (∀ acct', authenticate acct = (Ret tt, acct') →
       is_Some (service (client acct')) ∧ authenticate acct' = (Ret tt, acct')).
Proof.
  assert (Hcached : ∀ a, is_Some (service (client a)) → authenticate a = (Ret tt, a)).
  { intros a [c Hc]. unfold authenticate. by rewrite Hc. }
  split; [apply Hcached|]. intros acct' Hrun.
  assert (is_Some (service (client acct'))) as Hs; [|by split; [|apply Hcached]].
  destruct (service (client acct)) as [c|] eqn:Hc.
  - rewrite Hcached in Hrun by (by rewrite Hc). injection Hrun as <-. by rewrite Hc.
  - destruct (authenticate_cases acct Hc) as [[msg Hr] | [(c & Hr & _) | (c & Hr)]];
      rewrite Hr in Hrun; [done|injection Hrun as <-; by eexists..].
Qed.

(** X12. An authentication that fails changes nothing: the client has no
    service, no file is written and nothing is submitted. It fails with a
    [RuntimeError], either because the secrets file is missing when the
    consent flow is needed, or because the refresh of expired credentials is
    refused. *)
Theorem authenticate_failure_changes_nothing (acct acct' : Account) (e : exn) :
  authenticate acct = (Raise e, acct') →
  acct' = acct
  ∧ service (client acct) = None
  ∧ ((e = RuntimeError "credentials.json is missing. Follow the README to configure OAuth."
      ∧ files acct !! credentials_path (client acct) = None)
     ∨ (e = RuntimeError "Failed to refresh OAuth token. Re-run the login flow."
        ∧ ∃ content c,
            files acct !! token_path (client acct) = Some content
            ∧ from_authorized_user_file content (scopes (client acct)) = Some c
            ∧ valid c = false ∧ expired c = true ∧ refresh c = RefreshError)).
Proof.
  unfold authenticate. destruct (service (client acct)) eqn:Hs; [done|].
  assert (Hflow : ∀ e' a',
    match files acct !! credentials_path (client acct) with
    | Some secrets => (Ret tt : outcome unit,
        {| client := with_service (client acct) (run_local_server secrets (scopes (client acct)));
           files := <[token_path (client acct) :=
                      to_json (run_local_server secrets (scopes (client acct)))]> (files acct);
           submitted := submitted acct |})
    | None => (Raise (RuntimeError
                 "credentials.json is missing. Follow the README to configure OAuth."), acct)
    end = (Raise e', a') →
    a' = acct
    ∧ e' = RuntimeError "credentials.json is missing. Follow the README to configure OAuth."
    ∧ files acct !! credentials_path (client acct) = None).
  { intros e' a'. destruct (files acct !! credentials_path _); [done|]. by intros [= <- <-]. }
  unfold obtain.
  destruct (files acct !! token_path (client acct)) as [content|] eqn:Hfile.
  - destruct (from_authorized_user_file content _) as [c|] eqn:Hread.
    + destruct (valid c) eqn:Hvalid; [done|].
      destruct (expired c && truthy_opt (refresh_token c)) eqn:Hexp.
      * apply andb_true_iff in Hexp as [Hexp _].
        destruct (refresh c) eqn:Hrefresh; [done|]. intros [= <- <-].
        split; [done|]. split; [done|]. right. split; [done|]. by exists content, c.
      * intros Hrun. destruct (Hflow e acct') as (-> & -> & Hmissing).
        { by destruct (files acct !! credentials_path _). }
        auto.
    + intros Hrun. destruct (Hflow e acct') as (-> & -> & Hmissing).
      { by destruct (files acct !! credentials_path _). }
      auto.
  - intros Hrun. destruct (Hflow e acct') as (-> & -> & Hmissing).
    { by destruct (files acct !! credentials_path _). }
    auto.
Qed.

Lemma authenticate_valid_token (acct : Account) (content : string) (c : Credentials) :
  service (client acct) = None →
  files acct !! token_path (client acct) = Some content →
  from_authorized_user_file content (scopes (client acct)) = Some c →
  valid c = true →
  authenticate acct
  = (Ret tt, {| client := with_service (client acct) c;
                files := files acct;
                submitted := submitted acct |}).
Proof.
  intros Hnone Hfile Hread Hvalid. unfold authenticate.
  by rewrite Hnone, Hfile, Hread, Hvalid.
Qed.

(** X13. An authentication that succeeds keeps the paths, the scopes and
    the compose flag of the client, submits nothing, and touches no file
    but the token file. When the token file holds valid credentials the
    service is built from them and no file is written at all; when it
    holds none (it is missing, unreadable, or its credentials are not
    valid) the token file ends up holding the JSON of the credentials the
    service was built from. *)
Theorem authenticate_persists_token (acct acct' : Account) :
  service (client acct) = None →
  authenticate acct = (Ret tt, acct') →
  ∃ creds,
    client acct' = with_service (client acct) creds
    ∧ submitted acct' = submitted acct
    ∧ (∀ path, path ≠ token_path (client acct) → files acct' !! path = files acct !! path)
    ∧ (∀ content c,
         files acct !! token_path (client acct) = Some content →
         from_authorized_user_file content (scopes (client acct)) = Some c →
         valid c = true →
         creds = c ∧ files acct' = files acct)
    ∧ ((∀ content c,
          files acct !! token_path (client acct) = Some content →
          from_authorized_user_file content (scopes (client acct)) = Some c →
          valid c = false) →
       files acct' !! token_path (client acct) = Some (to_json creds)).
Proof.
  intros Hnone Hrun.
  destruct (authenticate_cases acct Hnone)
    as [[msg Hr] | [(c & Hr & Hv & content & Hfile & Hread) | (c & Hr)]];
    rewrite Hr in Hrun; [done|injection Hrun as <-; exists c; cbn..].
  - split; [done|]. split; [done|]. split; [done|]. split.
    + intros content0 c0 Hfile0 Hread0 _.
      rewrite Hfile in Hfile0. injection Hfile0 as <-.
      rewrite Hread in Hread0. by injection Hread0 as <-.
    + intros Hinvalid. specialize (Hinvalid content c Hfile Hread). congruence.
  - split; [done|]. split; [done|]. split.
    { intros path Hpath. by rewrite lookup_insert_ne. }
    split.
    + intros content0 c0 Hfile0 Hread0 Hvalid0.
      pose proof (authenticate_valid_token acct content0 c0 Hnone Hfile0 Hread0 Hvalid0)
        as Hdirect.
      rewrite Hr in Hdirect. unfold with_service in Hdirect.
      by injection Hdirect as -> ->.
    + intros _. apply lookup_insert_eq.
Qed.

(** ** The account: drafts *)

(** X14. Without the compose scope no draft is created: [create_draft] raises
    at once, before any authentication and any request. The flag is off
    exactly for a client made with a non-empty list of scopes that lacks the
    compose scope; an absent list, and an empty one, give the default scopes,
    which include it. *)
Theorem create_draft_needs_compose_scope :
  (∀ acct message reply_body,
     compose_enabled (client acct) = false →
     create_draft acct message reply_body
     = (Raise (RuntimeError "Gmail compose scope not configured. Cannot save drafts."), acct))
  ∧ (∀ credentials_path token_path scopes,
       compose_enabled (__init__ credentials_path token_path scopes) = false
       ↔ ∃ scope more, scopes = Some (scope :: more) ∧ COMPOSE_SCOPE ∉ scope :: more)
  ∧ (∀ credentials_path token_path,
       compose_enabled (__init__ credentials_path token_path None) = true
       ∧ compose_enabled (__init__ credentials_path token_path (Some [])) = true).
Proof.
  split; [|split].
  - intros acct message reply_body Hoff. unfold create_draft. by rewrite Hoff.
  - intros cp tp scopes. unfold __init__. cbn [compose_enabled].
    rewrite bool_decide_eq_false. destruct scopes as [[|scope more]|].
    + split; [intros Hno; exfalso; apply Hno; set_solver | by intros (? & ? & ? & _)].
    + split; [by exists scope, more | by intros (? & ? & [= <- <-] & ?)].
    + split; [intros Hno; exfalso; apply Hno; set_solver | by intros (? & ? & ? & _)].
  - done.
Qed.

(** X15. [create_draft] submits at most one message, and never a second time:
    what it submits is the encoded envelope of the reply. It returns only
    after that one submission was answered, with the identifier of the
    answer (the empty string when the answer has none), and then the client
    holds a service. When nothing was submitted it has raised: the compose
    scope is off, or the authentication failed. *)
Theorem create_draft_submits_once (acct acct' : Account) (message : GmailMessage)
    (reply_body : string) (o : outcome string) :
  create_draft acct message reply_body = (o, acct') →
  let raw := urlsafe_b64encode (email_content message reply_body) in
  (submitted acct' = submitted acct ∨ submitted acct' = submitted acct ++ [raw])
  ∧ (∀ draft_id, o = Ret draft_id →
       compose_enabled (client acct) = true
       ∧ submitted acct' = submitted acct ++ [raw]
       ∧ is_Some (service (client acct'))
       ∧ ∃ draft, drafts_create raw = Answer draft ∧ draft_id = default "" draft)
  ∧ (submitted acct' = submitted acct ++ [raw] → drafts_create raw = HttpError →
       o = Raise (RuntimeError "Unable to save draft to Gmail. Check your compose scope."))
  ∧ (submitted acct' = submitted acct → ∃ msg, o = Raise (RuntimeError msg) ∧ acct' = acct).
Proof.
  intros Hrun raw. unfold create_draft in Hrun. fold raw in Hrun.
  assert (Hneq : ∀ l : list string, l ++ [raw] ≠ l).
  { intros l Hl. apply (f_equal length) in Hl. rewrite length_app in Hl. cbn in Hl. lia. }
  destruct (compose_enabled (client acct)) eqn:Hon; cbn [negb] in Hrun.
  2:{ injection Hrun as <- <-. split; [by left|]. split; [done|].
      split; [by intros ?%symmetry%Hneq|]. eauto. }
  destruct (authenticate_outcomes acct) as [[msg Hauth] | (a1 & Hauth & Hsub & Hsvc)];
    rewrite Hauth in Hrun.
  - injection Hrun as <- <-. split; [by left|]. split; [done|].
    split; [by intros ?%symmetry%Hneq|]. eauto.
  - destruct (drafts_create raw) as [draft| |e] eqn:Hcreate; injection Hrun as <- <-; cbn;
      rewrite Hsub.
    + split; [by right|]. split; [intros ? [= <-]; eauto 10|]. split; [done|].
      by intros ?%Hneq.
    + split; [by right|]. split; [done|]. split; [done|]. by intros ?%Hneq.
    + split; [by right|]. split; [done|]. split; [done|]. by intros ?%Hneq.
Qed.

End account_facts.

Lemma authenticate_failure_witness :
  service (client (account [("token.json", "revoked-token")])) = None
  ∧ @authenticate StubAccountLibs (account [("token.json", "revoked-token")])
    = (Raise (RuntimeError "Failed to refresh OAuth token. Re-run the login flow."),
       account [("token.json", "revoked-token")]).
Proof.
  assert (Hrun : @authenticate StubAccountLibs (account [("token.json", "revoked-token")])
                 = (Raise (RuntimeError "Failed to refresh OAuth token. Re-run the login flow."),
                    account [("token.json", "revoked-token")]))
    by (vm_compute; reflexivity).
  split; [|exact Hrun].
  exact (proj1 (proj2 (@authenticate_failure_changes_nothing StubAccountLibs _ _ _ Hrun))).
Defined.

Lemma authenticate_refresh_witness :
  let acct := account [("token.json", "expired-token")] in
  let acct' := {| client := with_service (client acct) refreshed_creds;
                  files := <["token.json" := "refreshed-token"]> (files acct);
                  submitted := [] |} in
  @authenticate StubAccountLibs acct = (Ret tt, acct')
  ∧ ∃ creds, client acct' = with_service (client acct) creds
             ∧ files acct' !! "token.json" = Some (to_json creds).
Proof.
  intros acct acct'.
  assert (Hrun : @authenticate StubAccountLibs acct = (Ret tt, acct'))
    by (vm_compute; reflexivity).
  split; [exact Hrun|].
  destruct (@authenticate_persists_token StubAccountLibs acct acct' eq_refl Hrun)
    as (creds & Hclient & _ & _ & _ & Hwritten).
  exists creds. split; [exact Hclient|]. apply Hwritten.
  intros content c Hfile Hread. vm_compute in Hfile. injection Hfile as <-.
  vm_compute in Hread. by injection Hread as <-.
Defined.

Lemma create_draft_witness :
  let acct := account [("credentials.json", "secrets")] in
  let raw := @urlsafe_b64encode StubAccountLibs (email_content top_message "OK") in
  let acct' := {| client := with_service (client acct) granted_creds;
                  files := <["token.json" := "granted-token"]> (files acct);
                  submitted := [raw] |} in
  @create_draft StubAccountLibs acct top_message "OK" = (Ret "d1", acct')
  ∧ raw = "VG86IEJvYiA8Ym9iQGV4YW1wbGUuY29tPg0KU3ViamVjdDogUmU6IFJlOiBsdW5jaD8NCkNvbnRlbnQtVHlwZTogdGV4dC9wbGFpbjsgY2hhcnNldD1VVEYtOA0KDQpPSw=="
  ∧ is_Some (service (client acct')).
Proof.
  intros acct raw acct'.
  assert (Hrun : @create_draft StubAccountLibs acct top_message "OK" = (Ret "d1", acct'))
    by (vm_compute; reflexivity).
  split; [exact Hrun|]. split; [vm_compute; reflexivity|].
  destruct (@create_draft_submits_once StubAccountLibs _ _ _ _ _ Hrun) as (_ & Hret & _).
  by destruct (Hret "d1" eq_refl) as (_ & _ & Hsvc & _).
Defined.

(** ** The order of the cards, and the bulk mode *)

Section display_facts.
Context {A : Type} (key : A → Z).

Lemma insert_by_perm (x : A) (l : list A) : insert_by key x l ≡ₚ x :: l.
Proof.
  induction l as [|y l IH]; cbn; [done|].
  destruct (key y <=? key x); [done|]. rewrite IH. apply Permutation_swap.
Qed.

Lemma sort_by_perm (l : list A) : sort_by key l ≡ₚ l.
Proof.
  induction l as [|x l IH]; cbn; [done|].
  fold (sort_by key l). by rewrite insert_by_perm, IH.
Qed.

Lemma insert_by_sorted (x : A) (l : list A) :
  StronglySorted (λ a b, key b ≤ key a) l →
  StronglySorted (λ a b, key b ≤ key a) (insert_by key x l).
Proof.
  induction 1 as [|y l Hl IH Hy]; cbn.
  - repeat constructor.
  - destruct (key y <=? key x) eqn:E.
    + apply Z.leb_le in E. constructor; [by constructor|].
      constructor; [done|]. eapply Forall_impl; [exact Hy|]. cbn. lia.
    + apply Z.leb_gt in E. constructor; [done|].
      rewrite insert_by_perm. constructor; [lia | done].
Qed.

Lemma sort_by_sorted (l : list A) : StronglySorted (λ a b, key b ≤ key a) (sort_by key l).
Proof.
  induction l as [|x l IH]; cbn; [constructor|]. by apply insert_by_sorted.
Qed.

Lemma sort_by_fixed (l : list A) :
  StronglySorted (λ a b, key b ≤ key a) l → sort_by key l = l.
Proof.
  induction 1 as [|x l Hl IH Hx]; [done|].
  cbn. fold (sort_by key l). rewrite IH. destruct l as [|y l]; [done|].
  cbn. apply Forall_cons in Hx as [Hy _]. apply Z.leb_le in Hy. by rewrite Hy.
Qed.

End display_facts.

Section bulk_facts.

(** X16. The cards are the filtered messages, each once, in descending order
    of the chosen key; any option other than [score] sorts by date. *)
Theorem displayed_is_sorted (filtered : list (GmailMessage * Z * list string))
    (sort_option : string) :
  displayed filtered sort_option ≡ₚ filtered
  ∧ (sort_option = "score" →
     StronglySorted (λ a b, b.1.2 ≤ a.1.2) (displayed filtered sort_option))
  ∧ (sort_option ≠ "score" →
     StronglySorted (λ a b, date b.1.1 ≤ date a.1.1) (displayed filtered sort_option)).
Proof.
  unfold displayed. destruct (decide (sort_option = "score")).
  - split; [apply sort_by_perm|]. split; [intros _; apply sort_by_sorted | done].
  - split; [apply sort_by_perm|]. split; [done | intros _; apply sort_by_sorted].
Qed.

(** X17. The bulk mode proposes replies for the [count] best-scored messages:
    no message left out has a higher score than one that is kept. When the
    cards are sorted by score, these are the first [count] cards. *)
Theorem top_messages_are_the_best (messages : list (GmailMessage * Z * list string))
    (count : Z) :
  0 ≤ count →
  length (top_messages messages count) = Nat.min (Z.to_nat count) (length messages)
  ∧ (∃ others,
       top_messages messages count ++ others ≡ₚ messages
       ∧ ∀ kept left, kept ∈ top_messages messages count → left ∈ others →
           left.1.2 ≤ kept.1.2)
  ∧ top_messages (displayed messages "score") count
    = take (Z.to_nat count) (displayed messages "score").
Proof.
  intros Hcount. unfold top_messages, slice_to.
  assert ((count <? 0) = false) as -> by lia.
  split; [|split].
  - by rewrite length_take, sort_by_perm.
  - exists (drop (Z.to_nat count) (sort_by (λ item, item.1.2) messages)).
    rewrite take_drop. split; [apply sort_by_perm|].
    intros kept left Hk Hl.
    pose proof (sort_by_sorted (λ item : GmailMessage * Z * list string, item.1.2) messages)
      as Hsorted.
    rewrite <- (take_drop (Z.to_nat count) (sort_by _ messages)) in Hsorted.
    revert Hsorted Hk Hl.
    generalize (take (Z.to_nat count) (sort_by (λ item, item.1.2) messages)).
    generalize (drop (Z.to_nat count) (sort_by (λ item, item.1.2) messages)).
    intros rest top. induction top as [|t top IH]; intros Hs Hk Hl.
    + by apply elem_of_nil in Hk.
    + cbn in Hs. apply StronglySorted_inv in Hs as [Hs Ht].
      apply elem_of_cons in Hk as [-> | Hk]; [|by apply IH].
      apply Forall_app in Ht as [_ Ht]. rewrite Forall_forall in Ht. by apply Ht.
  - unfold displayed. rewrite decide_True by done.
    by rewrite sort_by_fixed by apply sort_by_sorted.
Qed.

End bulk_facts.

Lemma top_messages_witness :
  top_messages [(top_message, 10, []); (top_message, 40, []); (top_message, 30, [])] 2
    = [(top_message, 40, []); (top_message, 30, [])]
  ∧ length (top_messages [(top_message, 10, []); (top_message, 40, []); (top_message, 30, [])] 2)
    = 2%nat.
Proof.
  split; [vm_compute; reflexivity|].
  by rewrite (proj1 (top_messages_are_the_best
                       [(top_message, 10, []); (top_message, 40, []); (top_message, 30, [])] 2
                       ltac:(lia))).
Defined.

Import task_dashboard.

(** ** The weekly dashboard: tables *)

Section table_facts.
Local Open Scope nat_scope.

Lemma str_len_app (a b : string) : str_len (a +:+ b) = str_len a + str_len b.
Proof.
  induction a as [|c a IH]; simpl; [done|]. destruct (is_continuation c); simpl; lia.
Qed.

Lemma str_len_repeat (c : ascii) (n : nat) :
  is_continuation c = false → str_len (str_repeat c n) = n.
Proof. intros Hc. induction n as [|n IH]; cbn; [done|]. by rewrite Hc, IH. Qed.

Lemma str_len_ljust (width : nat) (s : string) :
  str_len (ljust width s) = Nat.max width (str_len s).
Proof. unfold ljust. rewrite str_len_app, (str_len_repeat " " _ eq_refl). lia. Qed.

Lemma str_len_join (sep : string) (l : list string) :
  str_len (join sep l) = sum_list (str_len <$> l) + str_len sep * (length l - 1).
Proof.
  unfold join. induction l as [|x l IH]; [simpl; lia|].
  destruct l as [|y l]; [simpl; lia|].
  change (String.concat sep (x :: y :: l)) with (x +:+ sep +:+ String.concat sep (y :: l)).
  rewrite !str_len_app, IH. simpl. lia.
Qed.

(** After the inner loop: the widths are as many as before, none has
    shrunk, and each cell of the row fits its column. *)
Lemma widen_row_ok (row : list string) :
  ∀ widths idx, idx + length row ≤ length widths →
  ∃ ws, widen_row widths idx row = Ok ws
        ∧ length ws = length widths
        ∧ (∀ j w, widths !! j = Some w → ∃ w', ws !! j = Some w' ∧ w ≤ w')
        ∧ (∀ k cell, row !! k = Some cell →
             ∃ w', ws !! (idx + k) = Some w' ∧ str_len cell ≤ w').
Proof.
  induction row as [|cell row IH]; intros widths idx Hlen; cbn in *.
  - exists widths. repeat split; eauto. intros k cell Hk. by rewrite lookup_nil in Hk.
  - destruct (lookup_lt_is_Some_2 widths idx) as [w Hw]; [lia|]. rewrite Hw.
    destruct (IH (<[idx := Nat.max w (str_len cell)]> widths) (S idx))
      as (ws & -> & Hl & Hmono & Hfit); [rewrite length_insert; lia|].
    exists ws. rewrite length_insert in Hl. split; [done|]. split; [done|]. split.
    + intros j v Hj. destruct (decide (j = idx)) as [->|Hne].
      * destruct (Hmono idx (Nat.max w (str_len cell))) as (w' & Hw' & Hle).
        { apply list_lookup_insert_eq. lia. }
        exists w'. split; [done|]. rewrite Hw in Hj. injection Hj as <-. lia.
      * apply Hmono. by rewrite list_lookup_insert_ne.
    + intros [|k] c Hk; cbn in Hk.
      * injection Hk as <-. rewrite Nat.add_0_r.
        destruct (Hmono idx (Nat.max w (str_len cell))) as (w' & Hw' & Hle).
        { apply list_lookup_insert_eq. lia. }
        exists w'. split; [done | lia].
      * replace (idx + S k) with (S idx + k) by lia. by apply Hfit.
Qed.

Lemma widen_row_error (row : list string) :
  ∀ widths idx, idx ≤ length widths → length widths < idx + length row →
  widen_row widths idx row = IndexError.
Proof.
  induction row as [|cell row IH]; intros widths idx Hidx Hlen; cbn in *; [lia|].
  destruct (widths !! idx) as [w|] eqn:Hw; [|done].
  apply lookup_lt_Some in Hw. apply IH; rewrite length_insert; lia.
Qed.

Lemma widen_ok (rows : list (list string)) :
  ∀ widths, (∀ row, row ∈ rows → length row ≤ length widths) →
  ∃ ws, widen widths rows = Ok ws
        ∧ length ws = length widths
        ∧ (∀ j w, widths !! j = Some w → ∃ w', ws !! j = Some w' ∧ w ≤ w')
        ∧ (∀ row k cell, row ∈ rows → row !! k = Some cell →
             ∃ w', ws !! k = Some w' ∧ str_len cell ≤ w').
Proof.
  induction rows as [|row rows IH]; intros widths Hrows; cbn.
  - exists widths. repeat split; eauto. intros ? ? ? Hin. by apply elem_of_nil in Hin.
  - destruct (widen_row_ok row widths 0) as (w1 & -> & Hl1 & Hm1 & Hf1).
    { cbn. apply Hrows, list_elem_of_here. }
    cbn. destruct (IH w1) as (ws & -> & Hl & Hm & Hf).
    { intros r Hr. rewrite Hl1. by apply Hrows, list_elem_of_further. }
    exists ws. split; [done|]. split; [lia|]. split.
    + intros j w Hj. destruct (Hm1 j w Hj) as (w' & Hw' & Hle).
      destruct (Hm j w' Hw') as (w'' & Hw'' & Hle'). exists w''. split; [done | lia].
    + intros r k cell Hin Hk. apply elem_of_cons in Hin as [-> | Hin]; [|by eapply Hf].
      destruct (Hf1 k cell Hk) as (w' & Hw' & Hle). cbn in Hw'.
      destruct (Hm k w' Hw') as (w'' & Hw'' & Hle'). exists w''. split; [done | lia].
Qed.

Lemma widen_error (rows : list (list string)) :
  ∀ widths, (∃ row, row ∈ rows ∧ length widths < length row) →
  widen widths rows = IndexError.
Proof.
  induction rows as [|row rows IH]; intros widths (r & Hin & Hlong); cbn.
  - by apply elem_of_nil in Hin.
  - destruct (decide (length row ≤ length widths)) as [Hle|Hgt].
    + destruct (widen_row_ok row widths 0) as (w1 & -> & Hl1 & _); [cbn; lia|]. cbn.
      apply IH. apply elem_of_cons in Hin as [-> | Hin]; [lia|].
      exists r. split; [done | lia].
    + rewrite widen_row_error by (cbn; lia). done.
Qed.

(** A row whose cells fit their columns is laid out with each cell padded
    to the width of its column. *)
Lemma padded_cells_ok (row : list string) :
  ∀ ws idx,
  (∀ k cell, row !! k = Some cell → ∃ w, ws !! (idx + k) = Some w ∧ str_len cell ≤ w) →
  ∃ cells, padded_cells ws idx row = Ok cells
           ∧ str_len <$> cells = take (length row) (drop idx ws).
Proof.
  induction row as [|cell row IH]; intros ws idx Hfit; cbn.
  - exists []. by rewrite take_0.
  - destruct (Hfit 0 cell eq_refl) as (w & Hw & Hle). rewrite Nat.add_0_r in Hw. rewrite Hw.
    destruct (IH ws (S idx)) as (cells & -> & Hcells).
    { intros k c Hk. replace (S idx + k) with (idx + S k) by lia. by apply Hfit. }
    cbn. eexists. split; [done|]. cbn. rewrite Hcells, str_len_ljust.
    rewrite (drop_S ws w idx Hw). cbn. f_equal. lia.
Qed.

Lemma format_row_ok (ws : list nat) (row : list string) :
  (∀ k cell, row !! k = Some cell → ∃ w, ws !! k = Some w ∧ str_len cell ≤ w) →
  ∃ line, format_row ws row = Ok line
          ∧ str_len line = sum_list (take (length row) ws) + 3 * (length row - 1).
Proof.
  intros Hfit. destruct (padded_cells_ok row ws 0 Hfit) as (cells & Hcells & Hlens).
  unfold format_row. rewrite Hcells. cbn [rbind]. eexists. split; [done|].
  assert (length row ≤ length ws) as Hrow.
  { destruct row as [|c row _] using rev_ind; [cbn; lia|].
    destruct (Hfit (length row) c) as (w & Hw & _);
      [by rewrite lookup_app_r, Nat.sub_diag|].
    apply lookup_lt_Some in Hw. rewrite length_app. cbn. lia. }
  assert (length cells = length row) as Hlen.
  { apply (f_equal length) in Hlens.
    rewrite length_fmap, length_take, drop_0 in Hlens. lia. }
  rewrite str_len_join, Hlens, drop_0, Hlen. reflexivity.
Qed.

Lemma format_rows_ok (ws : list nat) (rows : list (list string)) :
  (∀ row k cell, row ∈ rows → row !! k = Some cell →
     ∃ w, ws !! k = Some w ∧ str_len cell ≤ w) →
  ∃ body, format_rows ws rows = Ok body
          ∧ Forall2 (λ row line,
                       str_len line
                       = sum_list (take (length row) ws) + 3 * (length row - 1)) rows body.
Proof.
  induction rows as [|row rows IH]; intros Hfit; cbn.
  - by exists [].
  - destruct (format_row_ok ws row) as (line & -> & Hline).
    { intros k cell. apply Hfit, list_elem_of_here. }
    destruct IH as (body & -> & Hbody).
    { intros r k cell Hr. by apply Hfit, list_elem_of_further. }
    cbn. eexists. split; [done|]. by constructor.
Qed.

Lemma str_len_dashes (ws : list nat) : str_len <$> (str_repeat "-" <$> ws) = ws.
Proof.
  induction ws as [|w ws IH]; [done|]. cbn. by rewrite IH, (str_len_repeat "-" _ eq_refl).
Qed.

(** The table of rows that are no longer than the header. *)
Lemma table_lines_ok (headers : list string) (rows : list (list string)) :
  (∀ row, row ∈ rows → length row ≤ length headers) →
  ∃ ws head body,
    table_lines headers rows = Ok (head :: join "-+-" (str_repeat "-" <$> ws) :: body)
    ∧ length ws = length headers
    ∧ (∀ k h, headers !! k = Some h → ∃ w, ws !! k = Some w ∧ str_len h ≤ w)
    ∧ (∀ row k cell, row ∈ rows → row !! k = Some cell →
         ∃ w, ws !! k = Some w ∧ str_len cell ≤ w)
    ∧ str_len head = sum_list ws + 3 * (length headers - 1)
    ∧ str_len (join "-+-" (str_repeat "-" <$> ws)) = sum_list ws + 3 * (length headers - 1)
    ∧ Forall2 (λ row line,
                 str_len line = sum_list (take (length row) ws) + 3 * (length row - 1))
        rows body.
Proof.
  intros Hrows. unfold table_lines.
  destruct (widen_ok rows (str_len <$> headers)) as (ws & -> & Hl & Hmono & Hfit).
  { intros row Hrow. rewrite length_fmap. by apply Hrows. }
  rewrite length_fmap in Hl. cbn [rbind].
  assert (Hheaders : ∀ k h, headers !! k = Some h → ∃ w, ws !! k = Some w ∧ str_len h ≤ w).
  { intros k h Hk. apply (Hmono k (str_len h)). by rewrite list_lookup_fmap, Hk. }
  destruct (format_row_ok ws headers Hheaders) as (head & -> & Hhead).
  destruct (format_rows_ok ws rows Hfit) as (body & -> & Hbody).
  cbn. exists ws, head, body. split; [done|]. split; [done|]. split; [done|].
  split; [done|]. rewrite <- Hl in Hhead at 1. rewrite firstn_all in Hhead.
  split; [done|]. split; [|done].
  rewrite str_len_join, str_len_dashes, length_fmap, Hl. done.
Qed.

(** X18. When every row has as many cells as the header, the table is laid out
    in columns: it has the header line, the separator and one line per row,
    and all these lines have the same length, the widths of the columns plus
    three characters between two columns; every cell, header included, fits
    the width of its column. *)
Theorem format_table_aligned (headers : list string) (rows : list (list string)) :
  (∀ row, row ∈ rows → length row = length headers) →
  ∃ widths lines,
    table_lines headers rows = Ok lines
    ∧ format_table headers rows = Ok (join newline lines)
    ∧ length lines = 2 + length rows
    ∧ length widths = length headers
    ∧ Forall (λ line, str_len line = sum_list widths + 3 * (length headers - 1)) lines
    ∧ (∀ k h, headers !! k = Some h → ∃ w, widths !! k = Some w ∧ str_len h ≤ w)
    ∧ (∀ row k cell, row ∈ rows → row !! k = Some cell →
         ∃ w, widths !! k = Some w ∧ str_len cell ≤ w).
Proof.
  intros Hrows.
  destruct (table_lines_ok headers rows) as (ws & head & body & Hlines & Hl & Hh & Hc & Hhead & Hsep & Hbody).
  { intros row Hrow. by rewrite (Hrows row Hrow). }
  exists ws, (head :: join "-+-" (str_repeat "-" <$> ws) :: body).
  split; [done|]. split; [unfold format_table; by rewrite Hlines|].
  split; [cbn; by rewrite <- (Forall2_length _ _ _ Hbody)|]. split; [done|].
  split; [|done]. constructor; [done|]. constructor; [done|].
  clear -Hbody Hrows Hl. induction Hbody as [|row line rows body Hline _ IH]; [constructor|].
  constructor.
  - rewrite Hline, (Hrows row) by apply list_elem_of_here.
    rewrite <- Hl at 1. by rewrite firstn_all.
  - apply IH. intros r Hr. by apply Hrows, list_elem_of_further.
Qed.

(** X19. [format_table] raises [IndexError] exactly when some row has more
    cells than the header; rows with fewer cells are accepted. *)
Theorem format_table_index_error (headers : list string) (rows : list (list string)) :
  format_table headers rows = IndexError
  ↔ ∃ row, row ∈ rows ∧ length headers < length row.
Proof.
  split.
  - intros Herr.
    destruct (decide (Exists (λ row, length headers < length row) rows)) as [Hex|Hno].
    + apply Exists_exists in Hex as (row & Hin & Hlong). by exists row.
    + exfalso. destruct (table_lines_ok headers rows) as (ws & head & body & Hlines & _).
      { intros row Hrow. apply Nat.nlt_ge. intros Hlong. apply Hno.
        apply Exists_exists. by exists row. }
      unfold format_table in Herr. by rewrite Hlines in Herr.
  - intros (row & Hin & Hlong). unfold format_table, table_lines.
    rewrite widen_error; [done|]. exists row. by rewrite length_fmap.
Qed.

End table_facts.

Lemma format_table_witness :
  ∃ widths lines,
    table_lines ["Jour"; "Tâche"] [["Lundi"; "Plan"]; ["Mardi"; "Atelier équipe"]] = Ok lines
    ∧ length lines = 4%nat
    ∧ Forall (λ line, str_len line = (sum_list widths + 3)%nat) lines.
Proof.
  destruct (format_table_aligned ["Jour"; "Tâche"]
              [["Lundi"; "Plan"]; ["Mardi"; "Atelier équipe"]])
    as (widths & lines & Hlines & _ & Hlen & _ & Hall & _).
  - intros row Hrow. apply elem_of_cons in Hrow as [-> | Hrow]; [done|].
    by apply list_elem_of_singleton in Hrow as ->.
  - by exists widths, lines.
Defined.

(** ** The weekly dashboard: grouping and counting *)

Section dashboard_facts.
Context {float : Type} (format_g : float → string).
Local Open Scope nat_scope.

Lemma insert_slot_perm (x : @Task float) (l : list Task) : insert_slot x l ≡ₚ x :: l.
Proof.
  induction l as [|y l IH]; cbn; [done|].
  destruct (str_le _ _); [done|]. rewrite IH. apply Permutation_swap.
Qed.

Lemma sort_slots_perm (l : list (@Task float)) : sort_slots l ≡ₚ l.
Proof.
  induction l as [|x l IH]; cbn; [done|].
  fold (sort_slots l). by rewrite insert_slot_perm, IH.
Qed.

Lemma str_le_trans (a b c : string) :
  str_le a b = true → str_le b c = true → str_le a c = true.
Proof.
  unfold str_le. intros Hab Hbc. apply Is_true_true.
  apply Is_true_true in Hab, Hbc. exact (transitivity (R := String.le) Hab Hbc).
Qed.

Lemma str_le_total (a b : string) : str_le a b = false → str_le b a = true.
Proof.
  unfold str_le. intros Hab. destruct (String.leb_total a b) as [H|H]; [congruence | done].
Qed.

Lemma insert_slot_sorted (x : @Task float) (l : list Task) :
  StronglySorted (λ a b, str_le (time_slot a) (time_slot b) = true) l →
  StronglySorted (λ a b, str_le (time_slot a) (time_slot b) = true) (insert_slot x l).
Proof.
  induction 1 as [|y l Hl IH Hy]; cbn.
  - repeat constructor.
  - destruct (str_le (time_slot x) (time_slot y)) eqn:E.
    + constructor; [by constructor|]. constructor; [done|].
      eapply Forall_impl; [exact Hy|]. cbn. intros z. by apply str_le_trans.
    + constructor; [done|]. rewrite insert_slot_perm.
      constructor; [by apply str_le_total | done].
Qed.

Lemma sort_slots_sorted (l : list (@Task float)) :
  StronglySorted (λ a b, str_le (time_slot a) (time_slot b) = true) (sort_slots l).
Proof.
  induction l as [|x l IH]; cbn; [constructor|]. by apply insert_slot_sorted.
Qed.

Lemma sort_slots_nil (l : list (@Task float)) : sort_slots l = [] → l = [].
Proof.
  intros Hl. apply Permutation_nil_r. rewrite <- Hl. symmetry. apply sort_slots_perm.
Qed.

(** The groups before they are sorted: the tasks of each day, in the order
    they were added; no group is empty. *)
Lemma grouped_lookup (tasks : list (@Task float)) (d : string) :
  foldl (λ grouped task, <[day task := default [] (grouped !! day task) ++ [task]]> grouped)
    (∅ : gmap string (list Task)) tasks !! d
  = match filter (λ t, day t = d) tasks with
    | [] => None
    | l => Some l
    end.
Proof.
  induction tasks as [|t tasks IH] using rev_ind; [done|].
  rewrite foldl_snoc, filter_app.
  destruct (decide (day t = d)) as [Hd|Hd].
  - rewrite (filter_cons_True _ t []) by done. cbn. rewrite Hd, lookup_insert_eq, IH.
    by destruct (filter _ tasks).
  - rewrite (filter_cons_False _ t []) by done. cbn.
    rewrite app_nil_r, lookup_insert_ne by done. apply IH.
Qed.

Lemma by_day_lookup (self : @WeeklyDashboard float) (d : string) :
  by_day self !! d
  = match filter (λ t, day t = d) (_tasks self) with
    | [] => None
    | l => Some (sort_slots l)
    end.
Proof.
  unfold by_day. rewrite lookup_fmap, grouped_lookup. by destruct (filter _ _).
Qed.

(** X20. [by_day] groups the tasks by their day: a day is a key exactly when
    some task has it, and its group holds the tasks of that day, each once,
    in ascending order of their time slot. *)
Theorem by_day_groups (self : @WeeklyDashboard float) (d : string) :
  (by_day self !! d = None ↔ ∀ t, t ∈ _tasks self → day t ≠ d)
  ∧ (∀ group, by_day self !! d = Some group →
       group ≠ []
       ∧ group ≡ₚ filter (λ t, day t = d) (_tasks self)
       ∧ StronglySorted (λ a b, str_le (time_slot a) (time_slot b) = true) group).
Proof.
  rewrite by_day_lookup. split.
  - destruct (filter _ _) as [|t l] eqn:Hf.
    + split; [|done]. intros _ t Ht Hd.
      assert (t ∈ filter (λ t, day t = d) (_tasks self)) as Hin
        by by apply list_elem_of_filter.
      rewrite Hf in Hin. by apply elem_of_nil in Hin.
    + split; [done|]. intros Hno. exfalso.
      assert (t ∈ filter (λ t, day t = d) (_tasks self)) as Hin
        by (rewrite Hf; apply list_elem_of_here).
      apply list_elem_of_filter in Hin as [Hd Hin]. by apply (Hno t).
  - intros group. destruct (filter _ _) as [|t l] eqn:Hf; [done|]. intros [= <-].
    split; [|split; [apply (sort_slots_perm (t :: l)) | apply (sort_slots_sorted (t :: l))]].
    intros Hnil. by apply (sort_slots_nil (t :: l)) in Hnil.
Qed.

Lemma status_summary_lookup (tasks : list (@Task float)) (s : string) :
  foldl (λ summary task, <[status task := S (default 0 (summary !! status task))]> summary)
    (∅ : gmap string nat) tasks !! s
  = match length (filter (λ t, status t = s) tasks) with
    | 0 => None
    | n => Some n
    end.
Proof.
  induction tasks as [|t tasks IH] using rev_ind; [done|].
  rewrite foldl_snoc, filter_app, length_app.
  destruct (decide (status t = s)) as [Hs|Hs].
  - rewrite (filter_cons_True _ t []) by done. cbn. rewrite Hs, lookup_insert_eq, IH.
    rewrite Nat.add_1_r. by destruct (length _).
  - rewrite (filter_cons_False _ t []) by done. cbn.
    rewrite Nat.add_0_r, lookup_insert_ne by done. apply IH.
Qed.

Lemma total_count_step (summary : gmap string nat) (k : string) :
  total_count (<[k := S (default 0 (summary !! k))]> summary) = S (total_count summary).
Proof.
  unfold total_count. destruct (summary !! k) as [n|] eqn:Hk; cbn.
  - rewrite <- (insert_delete_eq summary k (S n)).
    rewrite map_fold_insert_L; [|intros; lia|apply lookup_delete_eq].
    rewrite (map_fold_delete_L _ _ k n summary); [lia|intros; lia|done].
  - rewrite map_fold_insert_L; [done|intros; lia|done].
Qed.

(** X21. [status_summary] counts the tasks of each status: a status is a key
    exactly when some task has it, its count is the number of these tasks,
    and the counts add up to the number of tasks. *)
Theorem status_summary_counts (self : @WeeklyDashboard float) :
  (∀ s, status_summary self !! s
        = match length (filter (λ t, status t = s) (_tasks self)) with
          | 0 => None
          | n => Some n
          end)
  ∧ total_count (status_summary self) = length (_tasks self).
Proof.
  split; [intros s; apply status_summary_lookup|].
  unfold status_summary. induction (_tasks self) as [|t tasks IH] using rev_ind; [done|].
  rewrite foldl_snoc, total_count_step, IH, length_app. cbn. lia.
Qed.

Lemma render_day_ok (d : string) (tasks : list (@Task float)) :
  ∃ section, _render_day format_g d tasks = Ok section.
Proof.
  unfold _render_day, format_table.
  destruct (table_lines_ok ["Créneau"; "Tâche"; "Catégorie"; "Durée"; "Statut"]
              ((λ task, [time_slot task; title task; category task;
                         format_g (estimate_hours task) +:+ " h"; status_badge task])
                 <$> tasks))
    as (ws & head & body & -> & _).
  { intros row Hrow. apply list_elem_of_fmap in Hrow as (task & -> & _). done. }
  cbn. eauto.
Qed.

Lemma render_days_ok (grouped : gmap string (list (@Task float))) (days : list string) :
  ∃ sections, render_days format_g grouped days = Ok sections.
Proof.
  induction days as [|d days [sections IH]]; cbn; [eauto|].
  destruct (grouped !! d) as [[|task tasks]|]; [eauto| |eauto].
  destruct (render_day_ok d (task :: tasks)) as [section ->]. cbn. rewrite IH. cbn. eauto.
Qed.

Lemma render_days_ext (g1 g2 : gmap string (list (@Task float))) (days : list string) :
  (∀ d, d ∈ days → g1 !! d = g2 !! d) →
  render_days format_g g1 days = render_days format_g g2 days.
Proof.
  induction days as [|d days IH]; intros Hsame; cbn; [done|].
  rewrite (Hsame d) by apply list_elem_of_here.
  rewrite IH by (intros; by apply Hsame, list_elem_of_further). done.
Qed.

(** X22. The day tables never raise: every row has the five cells of the
    header. They show the days of [DAYS_ORDER] only, so that a task whose
    day is spelled otherwise is left out without notice: the rendering
    depends on the tasks of these seven days and on nothing else. *)
Theorem render_day_tables_known_days (self : @WeeklyDashboard float) :
  (∃ text, _render_day_tables format_g self = Ok text)
  ∧ (∀ other : @WeeklyDashboard float,
       filter (λ t, day t ∈ DAYS_ORDER) (_tasks other)
       = filter (λ t, day t ∈ DAYS_ORDER) (_tasks self) →
       _render_day_tables format_g other = _render_day_tables format_g self)
  ∧ ((∀ t, t ∈ _tasks self → day t ∉ DAYS_ORDER) →
     _render_day_tables format_g self = Ok "").
Proof.
  assert (Hext : ∀ a b : @WeeklyDashboard float,
            filter (λ t, day t ∈ DAYS_ORDER) (_tasks a)
            = filter (λ t, day t ∈ DAYS_ORDER) (_tasks b) →
            _render_day_tables format_g a = _render_day_tables format_g b).
  { intros a b Hsame. unfold _render_day_tables. f_equal. apply render_days_ext.
    intros d Hd. rewrite !by_day_lookup.
    assert (Hd' : ∀ l : list (@Task float),
              filter (λ t, day t = d) l
              = filter (λ t, day t = d) (filter (λ t, day t ∈ DAYS_ORDER) l)).
    { intros l. rewrite list_filter_filter. apply list_filter_iff.
      intros t. split; [by intros -> | by intros [? _]]. }
    by rewrite (Hd' (_tasks a)), (Hd' (_tasks b)), Hsame. }
  split; [|split; [intros other; apply Hext|]].
  - unfold _render_day_tables.
    destruct (render_days_ok (by_day self) DAYS_ORDER) as [sections ->]. cbn. eauto.
  - intros Hnone.
    rewrite (Hext self {| week_label := week_label self; _tasks := [] |}); [done|].
    cbn. induction (_tasks self) as [|t tasks IH]; [done|].
    rewrite filter_cons_False by (apply Hnone, list_elem_of_here).
    apply IH. intros; by apply Hnone, list_elem_of_further.
Qed.

End dashboard_facts.
